(** * Gemini File Search plugin: a shallow embedding of the API client

    The development follows the TypeScript sources of the plugin:
    - [types.ts]           constants and the shapes of the provider's JSON,
    - [gemini-client.ts]   [resolveBaseUrl], [resolveApiKey], [buildHeaders],
                           [listFileSearchStores], [normalizeStoreName],
                           [queryFileSearch],
    - [query-tool.ts]      the tool layer's [execute].

    Conventions of the embedding.
    - A JavaScript string is a [string]; a character is one code unit, here an
      8-bit one (the Latin-1 range of UTF-16).
    - A JavaScript [number] that the configuration surface declares to be an
      integer ([maxStoresPerQuery], [timeoutMs]) is a [Z]; an HTTP status is
      an [N].
    - An optional field [f?: T] is an [option T]; [a ?? b] and [a || b] are
      written out with the nullish and the truthiness test they perform.
    - A plain object used as a map ([Record<string, string>]) is a
      [gmap string string].
    - An [async] function is a computation in the monad [M]: it threads the
      trace of the effects performed so far and ends in a value or in a
      thrown error. The outside world (the credential resolver of the host
      and the provider behind [fetch]) is a [World] the computations read. *)

From Stdlib Require Import ZArith NArith Ascii String List Bool DecimalString Lia.
From stdpp Require Import base option gmap strings list fin_maps.

Import ListNotations.
Local Open Scope string_scope.
Local Open Scope list_scope.
Local Open Scope Z_scope.

(** ** JavaScript strings *)

Module JsString.

(** [WhiteSpace] and [LineTerminator] code units of ECMAScript that fit in
    eight bits: TAB, LF, VT, FF, CR, SP and NBSP. *)
Definition is_white_space (c : ascii) : bool :=
  match nat_of_ascii c with
  | 9%nat | 10%nat | 11%nat | 12%nat | 13%nat | 32%nat | 160%nat => true
  | _ => false
  end.

(** [String.prototype.trimStart]. *)
Fixpoint trimStart (s : string) : string :=
  match s with
  | EmptyString => EmptyString
  | String c r => if is_white_space c then trimStart r else s
  end.

(** [String.prototype.trimEnd]. *)
Fixpoint trimEnd (s : string) : string :=
  match s with
  | EmptyString => EmptyString
  | String c r =>
      match trimEnd r with
      | EmptyString => if is_white_space c then EmptyString else String c EmptyString
      | String d r' => String c (String d r')
      end
  end.

(** [String.prototype.trim]. *)
Definition trim (s : string) : string := trimEnd (trimStart s).

(** [String.prototype.startsWith]: [startsWith s p] is [s.startsWith(p)]. *)
Definition startsWith (s p : string) : bool := String.prefix p s.

(** Truthiness of a string: only the empty string is falsy. *)
Definition truthy (s : string) : bool :=
  match s with EmptyString => false | String _ _ => true end.

(** [Array.prototype.join]. *)
Fixpoint join (sep : string) (l : list string) : string :=
  match l with
  | [] => ""
  | [x] => x
  | x :: r => x +:+ sep +:+ join sep r
  end.

(** [String(n)] for a non-negative integer. *)
Definition of_N (n : N) : string := NilZero.string_of_uint (N.to_uint n).

(** [s.indexOf(p)], [None] standing for [-1]. *)
Fixpoint indexOf (p s : string) : option nat :=
  if String.prefix p s then Some 0%nat
  else match s with
       | EmptyString => None
       | String _ r => S <$> indexOf p r
       end.

(** [s.slice(0, n)] for [0 <= n]. *)
Fixpoint take (n : nat) (s : string) : string :=
  match n, s with
  | S k, String c r => String c (take k r)
  | _, _ => EmptyString
  end.

(** [s.replace(/\/+$/, "")]: drop the slashes at the end. *)
Fixpoint stripTrailingSlashes (s : string) : string :=
  match s with
  | EmptyString => EmptyString
  | String c r =>
      match stripTrailingSlashes r with
      | EmptyString => if Ascii.eqb c "/" then EmptyString else String c EmptyString
      | String d r' => String c (String d r')
      end
  end.

(** One hexadecimal digit, upper case. *)
Definition hexDigit (n : nat) : ascii :=
  if Nat.ltb n 10 then ascii_of_nat (48 + n) else ascii_of_nat (55 + n).

Definition percent (n : nat) : string :=
  String "%" (String (hexDigit (Nat.div n 16)) (String (hexDigit (Nat.modulo n 16)) "")).

(** Code units that [encodeURIComponent] leaves alone:
    [A-Z a-z 0-9 - _ . ! ~ * ' ( )]. *)
Definition uriUnreserved (n : nat) : bool :=
  (Nat.leb 65 n && Nat.leb n 90) || (Nat.leb 97 n && Nat.leb n 122)
  || (Nat.leb 48 n && Nat.leb n 57)
  || existsb (Nat.eqb n) [45; 95; 46; 33; 126; 42; 39; 40; 41]%nat.

(** [encodeURIComponent]: every other code unit is written as the escaped
    bytes of its UTF-8 form (one byte below 128, two bytes from 128
    to 255). *)
Fixpoint encodeURIComponent (s : string) : string :=
  match s with
  | EmptyString => EmptyString
  | String c r =>
      let n := nat_of_ascii c in
      (if uriUnreserved n then String c ""
       else if Nat.ltb n 128 then percent n
       else percent (192 + Nat.div n 64) +:+ percent (128 + Nat.modulo n 64))
      +:+ encodeURIComponent r
  end.

End JsString.

(** ** types.ts *)

Record PluginCfg := {
  defaultModel : option string;
  maxStoresPerQuery : option Z;
  timeoutMs : option Z;
}.

Definition DEFAULT_MODEL : string := "gemini-2.5-flash".
Definition DEFAULT_TIMEOUT_MS : Z := 30000.
Definition MAX_STORES_HARD_LIMIT : Z := 5.
Definition DEFAULT_BASE_URL : string :=
  "https://generativelanguage.googleapis.com/v1beta".

(** The provider's JSON shapes. *)
Module Api.

Record FileSearchStore := {
  name : string;
  displayName : option string;
  description : option string;
}.

Record RetrievedContext := {
  uri : option string;
  title : option string;
}.

Record GroundingChunk := {
  retrievedContext : option RetrievedContext;
}.

Record GroundingMetadata := {
  groundingChunks : option (list GroundingChunk);
}.

Record ContentPart := {
  text : option string;
}.

Record Content := {
  parts : option (list ContentPart);
}.

Record ContentCandidate := {
  content : option Content;
  groundingMetadata : option GroundingMetadata;
}.

(** A parsed JSON body. [ListStoresResponse] and [GenerateContentResponse]
    are the two views the client casts it to; each reads one optional
    field of the object. *)
Record JsonBody := {
  fileSearchStores : option (list FileSearchStore);
  candidates : option (list ContentCandidate);
}.

End Api.

(** ** The host configuration, as far as the client reads it *)

Record GoogleProvider := {
  baseUrl : option string;
  headers : option (gmap string string);
}.

Record Providers := { google : option GoogleProvider }.
Record Models := { providers : option Providers }.
Record OpenClawConfig := { models : option Models }.

(** [config?.models?.providers?.google]. *)
Definition googleProvider (config : option OpenClawConfig) : option GoogleProvider :=
  ((config ≫= models) ≫= providers) ≫= google.

(** ** Errors, effects and the outside world *)

(** What an [async] function of the client can reject with. [Error] is an
    error object this module builds itself with [new Error(message)]; the
    other three are rejections of the collaborators, passed on unchanged:
    the host's credential resolver, [fetch] (a network failure, or the abort
    at the deadline) and [res.json()]. *)
Inductive Thrown :=
| Error (message : string)
| CredentialError (message : string)
| FetchError (message : string)
| JsonError (message : string).

Record ResolvedProviderAuth := {
  apiKey : option string;
  profileId : option string;
  source : string;
  mode : string;
}.

Record ResolveParams := {
  provider : string;
  cfg : option OpenClawConfig;
  agentDir : option string;
}.

(** The two exports of the host's [model-auth] module; [inl] is the message
    of a rejection. *)
Record ModelAuth := {
  resolveApiKeyForProvider : ResolveParams -> string + ResolvedProviderAuth;
  requireApiKey : ResolvedProviderAuth -> string -> string + string;
}.

Inductive Method := GET | POST.

Record FileSearch := { fileSearchStoreNames : list string }.
Record Tool := { fileSearch : FileSearch }.

(** The object handed to [JSON.stringify] in [queryFileSearch]. *)
Record RequestBody := {
  contents : list Api.Content;
  tools : list Tool;
}.

Record Request := {
  url : string;
  method : Method;
  reqHeaders : gmap string string;
  body : option RequestBody;
}.

Module Res.
(** A [Response]: [ok], [status], the outcome of [text()] and of
    [json()] ([inl] is the message of a parse failure). *)
Record Response := {
  ok : bool;
  status : N;
  text : string;
  json : string + Api.JsonBody;
}.
End Res.

Inductive FetchOutcome :=
| Rejected (reason : string)
| Resolved (res : Res.Response).

(** The outside world of one call. [modelAuth] is the module that the
    probing of [loadModelAuth] ends up with, [None] when no candidate path
    yields a module with both exports. *)
Record World := {
  modelAuth : option ModelAuth;
  fetch : Request -> FetchOutcome;
}.

Inductive Event :=
| EvResolveApiKey (p : ResolveParams)
| EvSetTimeout (ms : Z)
| EvFetch (req : Request)
| EvClearTimeout.

(** Computations: the trace so far goes in, the outcome and the extended
    trace come out. *)
Definition M (A : Type) : Type := list Event -> (Thrown + A) * list Event.

#[global] Instance M_ret : MRet M := fun A a tr => (inr a, tr).
#[global] Instance M_bind : MBind M := fun A B k m tr =>
  match m tr with
  | (inr a, tr') => k a tr'
  | (inl e, tr') => (inl e, tr')
  end.
Definition throw {A} (e : Thrown) : M A := fun tr => (inl e, tr).
Definition emit (ev : Event) : M unit := fun tr => (inr tt, tr ++ [ev]).

(** [try { m } finally { fin }], for a [fin] that does not throw. *)
Definition finally {A} (m : M A) (fin : M unit) : M A :=
  fun tr => match m tr with
            | (r, tr') => (r, snd (fin tr'))
            end.

(** A rejection of a collaborator, tagged with where it came from. *)
Definition lift {A} (tag : string -> Thrown) (r : string + A) : M A :=
  match r with
  | inl msg => throw (tag msg)
  | inr a => mret a
  end.

(** Run a computation from the empty trace. *)
Definition run {A} (m : M A) : (Thrown + A) * list Event := m [].

Definition isFetch (ev : Event) : bool :=
  match ev with EvFetch _ => true | _ => false end.

(** The requests issued to the provider, in order. *)
Definition requests (tr : list Event) : list Request :=
  omap (fun ev => match ev with EvFetch r => Some r | _ => None end) tr.

(** ** gemini-client.ts *)

(** [loadModelAuth]: the module cache and the probing of the candidate
    paths are summed up by [modelAuth]; when nothing can be imported the
    function throws. *)
Definition loadModelAuth (w : World) : M ModelAuth :=
  match modelAuth w with
  | Some ma => mret ma
  | None => throw (Error "Internal error: model-auth not available")
  end.

Definition resolveBaseUrl (config : option OpenClawConfig) : string :=
  let raw := JsString.trim <$> (googleProvider config ≫= baseUrl) in
  match raw with
  | None => DEFAULT_BASE_URL
  | Some raw =>
      if negb (JsString.truthy raw) then DEFAULT_BASE_URL
      else
        let url := JsString.stripTrailingSlashes raw in
        match JsString.indexOf "/openai" url with
        | Some openAiIndex => JsString.take openAiIndex url
        | None => url
        end
  end.

Definition resolveApiKey (w : World) (config : option OpenClawConfig)
    (agentDir : option string) : M string :=
  ma ← loadModelAuth w;
  let p := {| provider := "google"; cfg := config; agentDir := agentDir |} in
  emit (EvResolveApiKey p);;
  auth ← lift CredentialError (resolveApiKeyForProvider ma p);
  lift CredentialError (requireApiKey ma auth "google").

(** The object literal lists the two fixed entries first and spreads
    [providerHeaders] last, so on a shared key the spread entry is the one
    that stays. *)
Definition buildHeaders (apiKey : string) (config : option OpenClawConfig)
    : gmap string string :=
  let providerHeaders := googleProvider config ≫= headers in
  default ∅ providerHeaders
    ∪ <["x-goog-api-key" := apiKey]> (<["Content-Type" := "application/json"]> ∅).

(** [withTimeout] arms the deadline timer; the abort it may cause shows up
    as a rejection of [fetch]. [clear] disarms it. *)
Definition withTimeout (timeoutMs : Z) : M unit := emit (EvSetTimeout timeoutMs).
Definition clear : M unit := emit EvClearTimeout.

(** [await fetch(url, init)]. *)
Definition doFetch (w : World) (req : Request) : M Res.Response :=
  emit (EvFetch req);;
  match fetch w req with
  | Rejected reason => throw (FetchError reason)
  | Resolved res => mret res
  end.

Record ListParams := {
  lp_config : option OpenClawConfig;
  lp_agentDir : option string;
  lp_pluginCfg : option PluginCfg;
}.

(** The request of [listFileSearchStores], once the key is known. *)
Definition listRequest (apiKey : string) (params : ListParams) : Request :=
  let baseUrl := resolveBaseUrl (lp_config params) in
  let headers := buildHeaders apiKey (lp_config params) in
  let url := baseUrl +:+ "/fileSearchStores?key=" +:+ JsString.encodeURIComponent apiKey in
  {| url := url; method := GET; reqHeaders := headers; body := None |}.

Definition listFileSearchStores (w : World) (params : ListParams)
    : M (list Api.FileSearchStore) :=
  apiKey ← resolveApiKey w (lp_config params) (lp_agentDir params);
  let timeoutMs := default DEFAULT_TIMEOUT_MS (lp_pluginCfg params ≫= timeoutMs) in
  withTimeout timeoutMs;;
  finally
    (res ← doFetch w (listRequest apiKey params);
     if negb (Res.ok res) then
       let body := Res.text res in
       throw (Error ("Gemini listFileSearchStores failed: "
                     +:+ JsString.of_N (Res.status res) +:+ " " +:+ body))
     else
       data ← lift JsonError (Res.json res);
       mret (default [] (Api.fileSearchStores data)))
    clear.

Definition normalizeStoreName (name : string) : string :=
  let trimmed := JsString.trim name in
  if JsString.startsWith trimmed "fileSearchStores/" then trimmed
  else "fileSearchStores/" +:+ trimmed.

(** [arr.slice(0, end)] for an integer [end]: a negative [end] counts from
    the back of the array. *)
Definition slice0 {A} (arr : list A) (end_ : Z) : list A :=
  let len := Z.of_nat (length arr) in
  let final := if end_ <? 0 then Z.max (len + end_) 0 else Z.min end_ len in
  take (Z.to_nat final) arr.

Record Source := { title : string; uri : string }.
Record QueryResult := { answer : string; sources : list Source }.

Record QueryParams := {
  query : string;
  stores : list string;
  model : option string;
  config : option OpenClawConfig;
  qp_agentDir : option string;
  pluginCfg : option PluginCfg;
}.

(** Truthiness of an optional string: [undefined] and [""] are falsy. *)
Definition truthyOpt (a : option string) : bool :=
  match a with
  | Some s => JsString.truthy s
  | None => false
  end.

(** [a || b] with an optional string on the left. *)
Definition orElse (a : option string) (b : string) : string :=
  match a with
  | Some s => if JsString.truthy s then s else b
  | None => b
  end.

(** [params.model?.trim() || pluginCfg.defaultModel?.trim() || DEFAULT_MODEL]. *)
Definition resolveModel (model : option string) (pluginCfg : option PluginCfg) : string :=
  orElse (JsString.trim <$> model)
    (orElse (JsString.trim <$> (pluginCfg ≫= defaultModel)) DEFAULT_MODEL).

(** [Math.min(pluginCfg.maxStoresPerQuery ?? MAX_STORES_HARD_LIMIT,
    MAX_STORES_HARD_LIMIT)]. *)
Definition maxStores (pluginCfg : option PluginCfg) : Z :=
  Z.min (default MAX_STORES_HARD_LIMIT (pluginCfg ≫= maxStoresPerQuery))
        MAX_STORES_HARD_LIMIT.

(** [params.stores.slice(0, maxStores).map(normalizeStoreName)]. *)
Definition storeNames (stores : list string) (pluginCfg : option PluginCfg) : list string :=
  normalizeStoreName <$> slice0 stores (maxStores pluginCfg).

(** The answer taken from the first candidate. *)
Definition extractAnswer (candidate : option Api.ContentCandidate) : string :=
  match (candidate ≫= Api.content) ≫= Api.parts with
  | Some parts =>
      JsString.trim (JsString.join "" ((fun p => default "" (Api.text p)) <$> parts))
  | None => ""
  end.

(** One turn of the loop over the grounding chunks: [sources.push] when the
    test [ctx?.uri || ctx?.title] is truthy. *)
Definition pushSource (sources : list Source) (chunk : Api.GroundingChunk) : list Source :=
  match Api.retrievedContext chunk with
  | Some ctx =>
      if truthyOpt (Api.uri ctx) || truthyOpt (Api.title ctx) then
        sources ++ [ {| title := default (default "" (Api.uri ctx)) (Api.title ctx);
                        uri := default "" (Api.uri ctx) |} ]
      else sources
  | None => sources
  end.

Definition extractSources (candidate : option Api.ContentCandidate) : list Source :=
  let chunks := default [] ((candidate ≫= Api.groundingMetadata) ≫= Api.groundingChunks) in
  fold_left pushSource chunks [].

(** The request of [queryFileSearch], once the key is known. *)
Definition queryRequest (apiKey : string) (params : QueryParams) : Request :=
  let baseUrl := resolveBaseUrl (config params) in
  let headers := buildHeaders apiKey (config params) in
  let model := resolveModel (model params) (pluginCfg params) in
  let url := baseUrl +:+ "/models/" +:+ JsString.encodeURIComponent model
             +:+ ":generateContent?key=" +:+ JsString.encodeURIComponent apiKey in
  let body :=
    {| contents := [ {| Api.parts := Some [ {| Api.text := Some (query params) |} ] |} ];
       tools := [ {| fileSearch :=
                      {| fileSearchStoreNames := storeNames (stores params) (pluginCfg params) |} |} ] |} in
  {| url := url; method := POST; reqHeaders := headers; body := Some body |}.

Definition queryFileSearch (w : World) (params : QueryParams) : M QueryResult :=
  apiKey ← resolveApiKey w (config params) (qp_agentDir params);
  let timeoutMs := default DEFAULT_TIMEOUT_MS (pluginCfg params ≫= timeoutMs) in
  let storeNames := storeNames (stores params) (pluginCfg params) in
  if (length storeNames =? 0)%nat then
    throw (Error "At least one store name is required")
  else
    withTimeout timeoutMs;;
    finally
      (res ← doFetch w (queryRequest apiKey params);
       if negb (Res.ok res) then
         let payload := Res.text res in
         throw (Error ("Gemini generateContent failed: "
                       +:+ JsString.of_N (Res.status res) +:+ " " +:+ payload))
       else
         data ← lift JsonError (Res.json res);
         let candidate := Api.candidates data ≫= head in
         mret {| answer := extractAnswer candidate;
                 sources := extractSources candidate |})
      clear.

(** ** query-tool.ts *)

(** A value of type [unknown], told apart the way [execute] does: by
    [typeof v === "string"] and by [Array.isArray(v)]. *)
Inductive Unknown :=
| UString (s : string)
| UArray (items : list string)
| UOther.

Record TextContent := { type : string; text : string }.
Record ToolResult := { content : list TextContent }.

Record PluginApi := { pluginConfig : option PluginCfg }.
Record ToolContext := { ctx_config : option OpenClawConfig; ctx_agentDir : option string }.

Definition emptyPluginCfg : PluginCfg :=
  {| defaultModel := None; maxStoresPerQuery := None; timeoutMs := None |}.

Definition newline : string := String (ascii_of_nat 10) "".

(** The line of one source in the listing, [i] counting from zero. *)
Definition sourceLine (i : nat) (s : Source) : string :=
  let label := orElse (Some (title s)) (orElse (Some (uri s)) "unknown") in
  if JsString.truthy (uri s) then
    JsString.of_N (N.of_nat (i + 1)) +:+ ". [" +:+ label +:+ "](" +:+ uri s +:+ ")"
  else
    JsString.of_N (N.of_nat (i + 1)) +:+ ". " +:+ label.

Definition execute (w : World) (api : PluginApi) (ctx : ToolContext)
    (params : gmap string Unknown) : M ToolResult :=
  let pluginCfg := default emptyPluginCfg (pluginConfig api) in
  let query := match params !! "query" with
               | Some (UString s) => JsString.trim s
               | _ => ""
               end in
  if negb (JsString.truthy query) then throw (Error "query is required")
  else
    let stores := match params !! "stores" with
                  | Some (UArray items) => items
                  | _ => []
                  end in
    if (length stores =? 0)%nat then throw (Error "at least one store is required")
    else
      let model := match params !! "model" with
                   | Some (UString s) =>
                       let t := JsString.trim s in
                       if JsString.truthy t then Some t else None
                   | _ => None
                   end in
      result ← queryFileSearch w
                 {| query := query; stores := stores; model := model;
                    config := ctx_config ctx; qp_agentDir := ctx_agentDir ctx;
                    pluginCfg := Some pluginCfg |};
      let parts :=
        [ if JsString.truthy (answer result) then answer result
          else "No answer was generated for this query." ] in
      let parts :=
        if (0 <? length (sources result))%nat
        then parts ++ [""; "**Sources:**"] ++ imap sourceLine (sources result)
        else parts in
      mret {| content := [ {| type := "text"; text := JsString.join newline parts |} ] |}.

(** ** Vocabulary of the specification *)

(** [sub] occurs somewhere in [s]. *)
Definition occursIn (sub s : string) : Prop :=
  exists a b, s = a +:+ sub +:+ b.

(** The name of the API-key header. *)
Definition API_KEY_HEADER : string := "x-goog-api-key".

(** A host configuration that sets only the provider-specific headers. *)
Definition hostHeaders (h : gmap string string) : option OpenClawConfig :=
  Some {| models := Some {| providers := Some {| google :=
    Some {| baseUrl := None; headers := Some h |} |} |} |}.

(** A plugin configuration that sets only [maxStoresPerQuery]. *)
Definition capCfg (n : Z) : option PluginCfg :=
  Some {| defaultModel := None; maxStoresPerQuery := Some n; timeoutMs := None |}.



(** The canonical resource-name prefix of a store. *)
Definition STORE_PREFIX : string := "fileSearchStores/".

(** The credential resolver of the host hands out [key] for this
    configuration and directory hint. *)
Definition resolvesTo (w : World) (config : option OpenClawConfig)
    (agentDir : option string) (key : string) : Prop :=
  exists ma auth,
    modelAuth w = Some ma
    /\ resolveApiKeyForProvider ma
         {| provider := "google"; cfg := config; agentDir := agentDir |} = inr auth
    /\ requireApiKey ma auth "google" = inr key.

(** The extraction of a [QueryResult] as the specification words it. *)
Module Spec.

(** The first candidate of a response, if there is one. *)
Definition firstCandidate (data : Api.JsonBody) : option Api.ContentCandidate :=
  match Api.candidates data with
  | Some (c :: _) => Some c
  | _ => None
  end.

(** The text parts of a candidate's content, in order. *)
Definition textParts (c : Api.ContentCandidate) : list string :=
  match Api.content c with
  | Some {| Api.parts := Some ps |} => omap Api.text ps
  | _ => []
  end.

(** All text parts concatenated and trimmed; empty without a candidate. *)
Definition answer (data : Api.JsonBody) : string :=
  match firstCandidate data with
  | Some c => JsString.trim (foldr String.append "" (textParts c))
  | None => ""
  end.

Definition nonEmpty (o : option string) : Prop :=
  exists s, o = Some s /\ s <> "".

#[global] Instance nonEmpty_dec o : Decision (nonEmpty o).
Proof.
  destruct o as [s|].
  - destruct (decide (s = "")) as [->|Hne].
    + right. intros (s' & [= <-] & Hs). by apply Hs.
    + left. by exists s.
  - right. by intros (s' & [=] & _).
Defined.

(** The source a grounding chunk gives rise to: none unless its retrieved
    context has a non-empty URI or a non-empty title; the title falls
    back to the URI, the URI to the empty string. *)
Definition source (chunk : Api.GroundingChunk) : option Source :=
  match Api.retrievedContext chunk with
  | Some ctx =>
      if decide (nonEmpty (Api.uri ctx) \/ nonEmpty (Api.title ctx)) then
        Some {| title := match Api.title ctx, Api.uri ctx with
                         | Some t, _ => t
                         | None, Some u => u
                         | None, None => ""
                         end;
                uri := match Api.uri ctx with Some u => u | None => "" end |}
      else None
  | None => None
  end.

(** The grounding chunks of a candidate, in order. *)
Definition chunks (c : Api.ContentCandidate) : list Api.GroundingChunk :=
  match Api.groundingMetadata c with
  | Some {| Api.groundingChunks := Some cs |} => cs
  | _ => []
  end.

Definition sources (data : Api.JsonBody) : list Source :=
  match firstCandidate data with
  | Some c => omap source (chunks c)
  | None => []
  end.

End Spec.

(** ** Fixtures of gemini-client.test.ts *)

(** The mocked [model-auth] module of the tests. *)
Definition mockModelAuth : ModelAuth :=
  {| resolveApiKeyForProvider := fun _ =>
       inr {| apiKey := Some "test-api-key"; profileId := None;
              source := "test"; mode := "api-key" |};
     requireApiKey := fun _ _ => inr "test-api-key" |}.

(** A [model-auth] module that finds no credential. *)
Definition failingModelAuth : ModelAuth :=
  {| resolveApiKeyForProvider := fun _ => inl "No API key found for provider google";
     requireApiKey := fun _ _ => inl "No API key found for provider google" |}.

(** [jsonResponse(data, status)] of the tests; [text] stands for
    [JSON.stringify(data)]. *)
Definition jsonResponse (data : Api.JsonBody) (text : string) (status : N) : Res.Response :=
  {| Res.ok := (200 <=? status)%N && (status <? 300)%N;
     Res.status := status;
     Res.text := text;
     Res.json := inr data |}.

(** A world with the given [model-auth] module whose provider answers every
    request with [res]. *)
Definition worldWith (ma : ModelAuth) (res : Res.Response) : World :=
  {| modelAuth := Some ma; fetch := fun _ => Resolved res |}.

Definition emptyBody : Api.JsonBody :=
  {| Api.fileSearchStores := None; Api.candidates := None |}.

(** The response of the test "returns answer and sources". *)
Definition answerBody : Api.JsonBody :=
  {| Api.fileSearchStores := None;
     Api.candidates := Some [
       {| Api.content := Some {| Api.parts := Some [ {| Api.text := Some "The answer is 42." |} ] |};
          Api.groundingMetadata := Some {| Api.groundingChunks := Some [
            {| Api.retrievedContext :=
                 Some {| Api.uri := Some "https://example.com/doc";
                         Api.title := Some "Doc A" |} |} ] |} |} ] |}.

(** A call of [queryFileSearch] that sets the query, the stores and the
    plugin configuration. *)
Definition queryOf (q : string) (names : list string) (pcfg : option PluginCfg) : QueryParams :=
  {| query := q; stores := names; model := None; config := None;
     qp_agentDir := None; pluginCfg := pcfg |}.

Definition listOf : ListParams :=
  {| lp_config := None; lp_agentDir := None; lp_pluginCfg := None |}.

(** The call with its store list cut down beforehand. *)
Definition withStores (params : QueryParams) (names : list string) : QueryParams :=
  {| query := query params; stores := names; model := model params;
     config := config params; qp_agentDir := qp_agentDir params;
     pluginCfg := pluginCfg params |}.

(** The provider of the test "returns answer and sources", and one that
    answers 429 as in the test "throws on API error". *)
Definition answerWorld : World :=
  worldWith mockModelAuth (jsonResponse answerBody "" 200).
Definition quotaWorld : World :=
  worldWith mockModelAuth (jsonResponse emptyBody "{quota}" 429).

(** A host without a credential for the provider. *)
Definition noCredentialWorld : World :=
  worldWith failingModelAuth (jsonResponse answerBody "" 200).

(** The call of the test "limits stores to maxStoresPerQuery". *)
Definition sevenStores : QueryParams :=
  queryOf "test" ["a"; "b"; "c"; "d"; "e"; "f"; "g"] (capCfg 3).

(** The parameters the tool layer receives for a query and a store list. *)
Definition toolParams (q : string) (names : list string) : gmap string Unknown :=
  <["query" := UString q]> (<["stores" := UArray names]> ∅).

Definition noApi : PluginApi := {| pluginConfig := None |}.
Definition noCtx : ToolContext := {| ctx_config := None; ctx_agentDir := None |}.

(** The message of the store-list validation in [queryFileSearch]. *)
Definition NO_STORES_MESSAGE : string := "At least one store name is required".

(** ** query-tool.ts: the text of a result *)

(** What [execute] does with the result of [queryFileSearch]: the answer or
    the sentence that stands in for it, then the numbered sources. *)
Definition formatResult (result : QueryResult) : ToolResult :=
  let parts :=
    [ if JsString.truthy (answer result) then answer result
      else "No answer was generated for this query." ] in
  let parts :=
    if (0 <? length (sources result))%nat
    then parts ++ [""; "**Sources:**"] ++ imap sourceLine (sources result)
    else parts in
  {| content := [ {| type := "text"; text := JsString.join newline parts |} ] |}.

(** The call [execute] hands to [queryFileSearch] for a query [q], a store
    list and the [model] parameter as it arrived. *)
Definition toolCall (api : PluginApi) (ctx : ToolContext) (q : string)
    (names : list string) (m : option Unknown) : QueryParams :=
  {| query := JsString.trim q;
     stores := names;
     model := match m with
              | Some (UString s) =>
                  if JsString.truthy (JsString.trim s) then Some (JsString.trim s) else None
              | _ => None
              end;
     config := ctx_config ctx;
     qp_agentDir := ctx_agentDir ctx;
     pluginCfg := Some (default emptyPluginCfg (pluginConfig api)) |}.

(** ** list-stores-tool.ts *)

(** The entry of one store in the listing, [i] counting from zero. *)
Definition storeEntry (i : nat) (s : Api.FileSearchStore) : string :=
  let parts :=
    [ JsString.of_N (N.of_nat (i + 1)) +:+ ". **"
      +:+ default (Api.name s) (Api.displayName s) +:+ "**" ] in
  let parts := parts ++ [ "   name: `" +:+ Api.name s +:+ "`" ] in
  let parts :=
    if truthyOpt (Api.description s)
    then parts ++ [ "   " +:+ default "" (Api.description s) ]
    else parts in
  JsString.join newline parts.

(** [createListStoresTool(api, ctx).execute]. *)
Definition listStoresExecute (w : World) (api : PluginApi) (ctx : ToolContext)
    : M ToolResult :=
  let pluginCfg := default emptyPluginCfg (pluginConfig api) in
  stores ← listFileSearchStores w
             {| lp_config := ctx_config ctx; lp_agentDir := ctx_agentDir ctx;
                lp_pluginCfg := Some pluginCfg |};
  if (length stores =? 0)%nat then
    mret {| content := [ {| type := "text"; text := "No file search stores found." |} ] |}
  else
    let lines := imap storeEntry stores in
    mret {| content := [ {| type := "text";
                            text := JsString.join (newline +:+ newline) lines |} ] |}.

(** ** gemini-client.ts: the probing of loadModelAuth *)

Module Loader.

(** The value a module exports under a name, as [typeof] sees it. *)
Inductive Export (A : Type) :=
| IsFunction (f : A)
| NotFunction.
Arguments IsFunction {A} f.
Arguments NotFunction {A}.

(** The two exports [extractModelAuth] looks at; [None] for a name the
    module does not export. *)
Record ModuleExports := {
  exp_resolveApiKeyForProvider :
    option (Export (ResolveParams -> string + ResolvedProviderAuth));
  exp_requireApiKey :
    option (Export (ResolvedProviderAuth -> string -> string + string));
}.

Definition extractModelAuth (mod_ : ModuleExports) : option ModelAuth :=
  match exp_resolveApiKeyForProvider mod_, exp_requireApiKey mod_ with
  | Some (IsFunction f), Some (IsFunction g) =>
      Some {| resolveApiKeyForProvider := f; requireApiKey := g |}
  | _, _ => None
  end.

(** The module system of the host: [importModule path] is [None] when
    [import(path)] rejects; [resolveOpenclaw] is the path
    [require.resolve("openclaw")] returns, [None] when it throws. *)
Record Host := {
  importModule : string -> option ModuleExports;
  resolveOpenclaw : option string;
}.

(** The two module-level variables that cache the functions. *)
Record Cache := {
  _resolveApiKeyForProvider :
    option (ResolveParams -> string + ResolvedProviderAuth);
  _requireApiKey :
    option (ResolvedProviderAuth -> string -> string + string);
}.

(** The cache and the paths handed to [import] so far. *)
Record State := {
  cache : Cache;
  imported : list string;
}.

Definition emptyCache : Cache :=
  {| _resolveApiKeyForProvider := None; _requireApiKey := None |}.

Definition isSeparator (c : ascii) : bool :=
  Ascii.eqb c "/" || Ascii.eqb c "\".

Fixpoint hasSeparator (s : string) : bool :=
  match s with
  | EmptyString => false
  | String c r => isSeparator c || hasSeparator r
  end.

(** [s.replace(/[/\\][^/\\]+$/, "")]: cut the last separator and what
    follows it, when something follows it. *)
Fixpoint dropLastSegment (s : string) : string :=
  match s with
  | EmptyString => EmptyString
  | String c r =>
      if isSeparator c && negb (hasSeparator r) && JsString.truthy r
      then EmptyString
      else String c (dropLastSegment r)
  end.

(** One of the two [for] loops: import each path in turn, keep the first
    module that has both functions and store them in the cache; a rejected
    import and a module without them are passed over. *)
Fixpoint tryPaths (h : Host) (paths : list string) (st : State)
    : option ModelAuth * State :=
  match paths with
  | [] => (None, st)
  | path :: rest =>
      let st' := {| cache := cache st; imported := imported st ++ [path] |} in
      match importModule h path ≫= extractModelAuth with
      | Some result =>
          (Some result,
           {| cache := {| _resolveApiKeyForProvider := Some (resolveApiKeyForProvider result);
                          _requireApiKey := Some (requireApiKey result) |};
              imported := imported st' |})
      | None => tryPaths h rest st'
      end
  end.

Definition relativePaths : list string :=
  ["../../../src/agents/model-auth.js"; "../../../agents/model-auth.js"].

Definition packagePaths (openclawRoot : string) : list string :=
  [openclawRoot +:+ "/" +:+ "agents/model-auth.js";
   openclawRoot +:+ "/" +:+ "src/agents/model-auth.js"].

Definition notAvailable : Thrown := Error "Internal error: model-auth not available".

Definition loadModelAuth (h : Host) (st : State) : (Thrown + ModelAuth) * State :=
  match _resolveApiKeyForProvider (cache st), _requireApiKey (cache st) with
  | Some f, Some g =>
      (inr {| resolveApiKeyForProvider := f; requireApiKey := g |}, st)
  | _, _ =>
      match tryPaths h relativePaths st with
      | (Some result, st') => (inr result, st')
      | (None, st') =>
          match resolveOpenclaw h with
          | Some resolved =>
              let openclawRoot := dropLastSegment resolved in
              match tryPaths h (packagePaths openclawRoot) st' with
              | (Some result, st'') => (inr result, st'')
              | (None, st'') => (inl notAvailable, st'')
              end
          | None => (inl notAvailable, st')
          end
      end
  end.

(** The candidate paths in the order the function tries them. *)
Definition candidates (h : Host) : list string :=
  relativePaths
  ++ match resolveOpenclaw h with
     | Some resolved => packagePaths (dropLastSegment resolved)
     | None => []
     end.

(** The module behind a path, when it can be imported and has both
    functions. *)
Definition usable (h : Host) (path : string) : option ModelAuth :=
  importModule h path ≫= extractModelAuth.

End Loader.

(** ** Vocabulary of the added properties *)

(** The cache that holds the two functions of a module. *)
Definition cacheOf (ma : ModelAuth) : Loader.Cache :=
  {| Loader._resolveApiKeyForProvider := Some (resolveApiKeyForProvider ma);
     Loader._requireApiKey := Some (requireApiKey ma) |}.

(** The cache does not hold both functions. *)
Definition cacheIsEmpty (c : Loader.Cache) : Prop :=
  Loader._resolveApiKeyForProvider c = None \/ Loader._requireApiKey c = None.

(** A module with both functions, and one whose [requireApiKey] is not a
    function. *)
Definition goodModule : Loader.ModuleExports :=
  {| Loader.exp_resolveApiKeyForProvider :=
       Some (Loader.IsFunction (resolveApiKeyForProvider mockModelAuth));
     Loader.exp_requireApiKey :=
       Some (Loader.IsFunction (requireApiKey mockModelAuth)) |}.
Definition halfModule : Loader.ModuleExports :=
  {| Loader.exp_resolveApiKeyForProvider :=
       Some (Loader.IsFunction (resolveApiKeyForProvider mockModelAuth));
     Loader.exp_requireApiKey := Some Loader.NotFunction |}.

(** A plugin installed outside the repository: the first relative path
    leads to a module of another shape, the second to nothing, and the
    package has the module under its root. *)
Definition installedHost : Loader.Host :=
  {| Loader.importModule := fun path =>
       if String.eqb path "../../../src/agents/model-auth.js" then Some halfModule
       else if String.eqb path "/opt/openclaw/dist/agents/model-auth.js" then Some goodModule
       else None;
     Loader.resolveOpenclaw := Some "/opt/openclaw/dist/index.js" |}.

(** A host where nothing can be imported and the package does not
    resolve. *)
Definition bareHost : Loader.Host :=
  {| Loader.importModule := fun _ => None; Loader.resolveOpenclaw := None |}.

Definition freshState : Loader.State :=
  {| Loader.cache := Loader.emptyCache; Loader.imported := [] |}.

(** The timers armed and not disarmed at the end of a trace. *)
Definition pendingTimers (tr : list Event) : Z :=
  fold_left (fun n ev => match ev with
                         | EvSetTimeout _ => n + 1
                         | EvClearTimeout => n - 1
                         | _ => n
                         end) tr 0.

(** A string ends with the character [c]. *)
Definition endsWith (s : string) (c : ascii) : Prop :=
  exists r, s = r +:+ String c "".

(** [k] copies of the character [c]. *)
Fixpoint repeatChar (c : ascii) (k : nat) : string :=
  match k with
  | O => EmptyString
  | S k' => String c (repeatChar c k')
  end.

(** The characters of a string. *)
Fixpoint chars (s : string) : list ascii :=
  match s with
  | EmptyString => []
  | String c r => c :: chars r
  end.

(** A character that [encodeURIComponent] can put out: an unreserved one,
    the percent sign or an upper-case hexadecimal digit. *)
Definition uriSafe (c : ascii) : bool :=
  JsString.uriUnreserved (nat_of_ascii c) || Ascii.eqb c "%".

(** A host configuration that sets only the base URL of the provider. *)
Definition hostBaseUrl (u : string) : option OpenClawConfig :=
  Some {| models := Some {| providers := Some {| google :=
    Some {| baseUrl := Some u; headers := None |} |} |} |}.

(** Two stores as in the test "formats store list". *)
Definition twoStores : list Api.FileSearchStore :=
  [ {| Api.name := "fileSearchStores/abc"; Api.displayName := Some "API Docs";
       Api.description := Some "Main API docs" |};
    {| Api.name := "fileSearchStores/def"; Api.displayName := Some "Guide";
       Api.description := None |} ].

Definition storesBody (l : option (list Api.FileSearchStore)) : Api.JsonBody :=
  {| Api.fileSearchStores := l; Api.candidates := None |}.

(** A provider that cannot be reached. *)
Definition offlineWorld : World :=
  {| modelAuth := Some mockModelAuth; fetch := fun _ => Rejected "fetch failed" |}.

(** A provider that answers 200 with a body that is not JSON. *)
Definition garbledWorld : World :=
  worldWith mockModelAuth
    {| Res.ok := true; Res.status := 200; Res.text := "<html>";
       Res.json := inl "Unexpected token <" |}.

(** * Properties *)

(** ** Strings *)

Section StringFacts.

Import JsString.

Lemma append_cons (c : ascii) (s t : string) :
  String c s +:+ t = String c (s +:+ t).
Proof. reflexivity. Qed.

Lemma append_empty_l (t : string) : "" +:+ t = t.
Proof. reflexivity. Qed.

Lemma append_empty_r (s : string) : s +:+ "" = s.
Proof. induction s as [|c s IH]; [done | by rewrite append_cons, IH]. Qed.

Lemma append_assoc (a b c : string) : (a +:+ b) +:+ c = a +:+ (b +:+ c).
Proof. induction a as [|x a IH]; [done | by rewrite !append_cons, IH]. Qed.

Lemma length_append (a b : string) :
  String.length (a +:+ b) = (String.length a + String.length b)%nat.
Proof.
  induction a as [|x a IH]; [done|].
  rewrite append_cons. simpl. by rewrite IH.
Qed.

(** [String.prefix] decides "is of the form [p +:+ r]". *)
Lemma prefix_true_iff (p s : string) :
  String.prefix p s = true <-> exists r, s = p +:+ r.
Proof.
  revert s. induction p as [|c p IH]; intros s.
  - split; [intros _; by exists s | intros _; by destruct s].
  - destruct s as [|d s]; simpl.
    + split; [done | intros (r & Hr); by rewrite append_cons in Hr].
    + destruct (ascii_dec c d) as [->|Hne].
      * rewrite IH. split; intros (r & Hr).
        -- exists r. by rewrite append_cons, Hr.
        -- exists r. rewrite append_cons in Hr. by injection Hr.
      * split; [done|].
        intros (r & Hr). rewrite append_cons in Hr.
        injection Hr as Hd _. by destruct Hne.
Qed.

Lemma startsWith_append (p r : string) : startsWith (p +:+ r) p = true.
Proof. unfold startsWith. apply prefix_true_iff. by exists r. Qed.

Lemma trimStart_shape (s : string) :
  trimStart s = "" \/ exists c r, trimStart s = String c r /\ is_white_space c = false.
Proof.
  induction s as [|c s IH]; simpl; [by left|].
  destruct (is_white_space c) eqn:Hc; [done|].
  right. by exists c, s.
Qed.

Lemma trimEnd_cons (c : ascii) (r : string) :
  trimEnd r <> "" -> trimEnd (String c r) = String c (trimEnd r).
Proof. simpl. by destruct (trimEnd r). Qed.

Lemma trimEnd_cons_black (c : ascii) (r : string) :
  is_white_space c = false -> trimEnd (String c r) = String c (trimEnd r).
Proof. intros Hc. simpl. destruct (trimEnd r); [by rewrite Hc | done]. Qed.

Lemma trimEnd_idem (s : string) : trimEnd (trimEnd s) = trimEnd s.
Proof.
  induction s as [|c s IH]; [done|].
  simpl. destruct (trimEnd s) as [|d r] eqn:Hs.
  - destruct (is_white_space c) eqn:Hc; [done|]. simpl. by rewrite Hc.
  - rewrite trimEnd_cons; by rewrite IH.
Qed.

Lemma trimStart_black (c : ascii) (r : string) :
  is_white_space c = false -> trimStart (String c r) = String c r.
Proof. intros Hc. simpl. by rewrite Hc. Qed.

(** A trimmed string has no white space left at its front. *)
Lemma trimStart_trim (s : string) : trimStart (trim s) = trim s.
Proof.
  unfold trim. destruct (trimStart_shape s) as [->|(c & r & -> & Hc)]; [done|].
  rewrite trimEnd_cons_black by done. by apply trimStart_black.
Qed.

Lemma trimEnd_trim (s : string) : trimEnd (trim s) = trim s.
Proof. apply trimEnd_idem. Qed.

Lemma trim_idem (s : string) : trim (trim s) = trim s.
Proof. unfold trim at 1. by rewrite trimStart_trim, trimEnd_trim. Qed.

(** White space cannot be trimmed off through a tail that is itself
    trimmed and not empty. *)
Lemma trimEnd_append (p t : string) :
  trimEnd t = t -> t <> "" -> trimEnd (p +:+ t) = p +:+ t.
Proof.
  intros Ht Hne. induction p as [|c p IH]; [done|].
  rewrite append_cons, trimEnd_cons; rewrite IH; [done|].
  destruct p; [done | by rewrite append_cons].
Qed.

(** Putting a prefix without outer white space in front of a trimmed
    string gives a trimmed string. *)
Lemma trim_prefixed (p s : string) :
  trim p = p -> p <> "" -> trim (p +:+ trim s) = p +:+ trim s.
Proof.
  intros Hp Hne.
  destruct (decide (trim s = "")) as [->|Hs]; [by rewrite append_empty_r|].
  assert (trimStart (p +:+ trim s) = p +:+ trim s) as Hfront.
  { destruct p as [|c p]; [done|].
    assert (is_white_space c = false) as Hc.
    { destruct (is_white_space c) eqn:Hc; [|done].
      rewrite <- Hp in Hne. pose proof (trimStart_trim (String c p)) as Hf.
      rewrite Hp in Hf. simpl in Hf. rewrite Hc in Hf.
      exfalso. clear -Hf.
      assert (forall q, String.length (trimStart q) <= String.length q)%nat as Hle.
      { induction q as [|x q IHq]; simpl; [lia|].
        destruct (is_white_space x); simpl; lia. }
      specialize (Hle p). rewrite Hf in Hle. simpl in Hle. lia. }
    rewrite append_cons. by apply trimStart_black. }
  unfold trim at 1. rewrite Hfront.
  apply trimEnd_append; [apply trimEnd_trim | done].
Qed.

Lemma join_empty_sep (l : list string) : join "" l = foldr String.append "" l.
Proof.
  induction l as [|x l IH]; [done|].
  destruct l as [|y l]; [simpl; by rewrite append_empty_r|].
  change (join "" (x :: y :: l)) with (x +:+ "" +:+ join "" (y :: l)).
  by rewrite IH, append_empty_l.
Qed.

End StringFacts.

(** ** Store names *)

Lemma normalizeStoreName_prefixed (s : string) :
  (exists r, JsString.trim s = STORE_PREFIX +:+ r) ->
  normalizeStoreName s = JsString.trim s.
Proof.
  intros Hr. unfold normalizeStoreName, JsString.startsWith.
  apply prefix_true_iff in Hr. unfold STORE_PREFIX in Hr. by rewrite Hr.
Qed.

Lemma normalizeStoreName_bare (s : string) :
  (forall r, JsString.trim s <> STORE_PREFIX +:+ r) ->
  normalizeStoreName s = STORE_PREFIX +:+ JsString.trim s.
Proof.
  intros Hr. unfold normalizeStoreName, JsString.startsWith.
  destruct (String.prefix "fileSearchStores/" (JsString.trim s)) eqn:Hp; [|done].
  apply prefix_true_iff in Hp as (r & Hp). by destruct (Hr r).
Qed.

Lemma normalizeStoreName_cases (s : string) :
  normalizeStoreName s = JsString.trim s
  \/ normalizeStoreName s = STORE_PREFIX +:+ JsString.trim s.
Proof.
  unfold normalizeStoreName.
  destruct (JsString.startsWith _ _); [by left | by right].
Qed.

Lemma normalizeStoreName_trimmed (s : string) :
  JsString.trim (normalizeStoreName s) = normalizeStoreName s.
Proof.
  unfold normalizeStoreName.
  destruct (JsString.startsWith _ _); [apply trim_idem|].
  by apply (trim_prefixed "fileSearchStores/").
Qed.

Lemma normalizeStoreName_startsWith (s : string) :
  exists r, normalizeStoreName s = STORE_PREFIX +:+ r.
Proof.
  unfold normalizeStoreName, JsString.startsWith.
  destruct (String.prefix _ _) eqn:Hp.
  - by apply prefix_true_iff in Hp.
  - by exists (JsString.trim s).
Qed.

(** C6 (as amended). Normalization works on the trimmed identifier [t]:
    when [t] does not start with the canonical prefix the result is the
    prefix followed by [t]; when [t] starts with the prefix the result is
    [t], so normalization is the identity on identifiers that are trimmed
    and start with the prefix; and normalizing twice equals normalizing
    once. *)
Theorem normalizeStoreName_spec (s : string) :
  ((forall r, JsString.trim s <> STORE_PREFIX +:+ r) ->
     normalizeStoreName s = STORE_PREFIX +:+ JsString.trim s)
  /\ ((exists r, JsString.trim s = STORE_PREFIX +:+ r) ->
        normalizeStoreName s = JsString.trim s)
  /\ (JsString.trim s = s -> (exists r, s = STORE_PREFIX +:+ r) ->
        normalizeStoreName s = s)
  /\ normalizeStoreName (normalizeStoreName s) = normalizeStoreName s.
Proof.
  split; [apply normalizeStoreName_bare|].
  split; [apply normalizeStoreName_prefixed|].
  split.
  - intros Ht Hr. rewrite <- Ht in Hr.
    rewrite (normalizeStoreName_prefixed s Hr). exact Ht.
  - rewrite (normalizeStoreName_prefixed (normalizeStoreName s)).
    + apply normalizeStoreName_trimmed.
    + rewrite normalizeStoreName_trimmed. apply normalizeStoreName_startsWith.
Qed.

Lemma normalizeStoreName_spec_witness :
  normalizeStoreName " short-id " = "fileSearchStores/short-id"
  /\ normalizeStoreName " fileSearchStores/full-id" = "fileSearchStores/full-id"
  /\ normalizeStoreName "fileSearchStores/full-id" = "fileSearchStores/full-id"
  /\ normalizeStoreName (normalizeStoreName " short-id ") = normalizeStoreName " short-id ".
Proof.
  split; [|split; [|split]].
  - destruct (normalizeStoreName_spec " short-id ") as (Hbare & _).
    rewrite Hbare; [reflexivity|].
    intros r Hr. vm_compute in Hr. discriminate Hr.
  - destruct (normalizeStoreName_spec " fileSearchStores/full-id") as (_ & Hpre & _).
    rewrite Hpre; [reflexivity|]. exists "full-id". reflexivity.
  - destruct (normalizeStoreName_spec "fileSearchStores/full-id") as (_ & _ & Hid & _).
    apply Hid; [reflexivity|]. exists "full-id". reflexivity.
  - destruct (normalizeStoreName_spec " short-id ") as (_ & _ & _ & Hidem).
    exact Hidem.
Defined.

(** C6 (as stated) fails twice: an identifier can contain the prefix
    without starting with it, and then it is not left alone; and an
    identifier with outer white space loses it, so the result is not the
    prefix followed by the identifier itself. *)
Lemma normalizeStoreName_claim_fails :
  (occursIn STORE_PREFIX "x/fileSearchStores/y"
   /\ normalizeStoreName "x/fileSearchStores/y" <> "x/fileSearchStores/y")
  /\ (~ occursIn STORE_PREFIX " a"
      /\ normalizeStoreName " a" <> STORE_PREFIX +:+ " a").
Proof.
  split; split.
  - exists "x/", "y". reflexivity.
  - vm_compute. discriminate.
  - intros (a & b & Hab).
    apply (f_equal String.length) in Hab.
    rewrite !length_append in Hab. simpl in Hab. lia.
  - vm_compute. discriminate.
Qed.

(** ** Headers *)

Lemma buildHeaders_lookup_host (apiKey : string) (config : option OpenClawConfig)
    (h : gmap string string) (k v : string) :
  googleProvider config ≫= headers = Some h ->
  h !! k = Some v ->
  buildHeaders apiKey config !! k = Some v.
Proof.
  intros Hh Hk. unfold buildHeaders. rewrite Hh. simpl.
  by apply lookup_union_Some_l.
Qed.

Lemma buildHeaders_lookup_fresh (apiKey : string) (config : option OpenClawConfig) :
  default ∅ (googleProvider config ≫= headers) !! API_KEY_HEADER = None ->
  buildHeaders apiKey config !! API_KEY_HEADER = Some apiKey.
Proof.
  intros Hk. unfold buildHeaders.
  rewrite lookup_union_r by exact Hk.
  apply lookup_insert_eq.
Qed.

(** C1 (as amended). When the provider-specific headers of the host contain
    the API-key header, the headers built for a call carry the host's value
    under that name; the freshly resolved key is what the header holds when
    the host sets no such header. Both callers send the headers that
    [buildHeaders] returns. *)
Theorem buildHeaders_api_key (apiKey : string) (conf : option OpenClawConfig) :
  (forall h v,
      googleProvider conf ≫= headers = Some h ->
      h !! API_KEY_HEADER = Some v ->
      buildHeaders apiKey conf !! API_KEY_HEADER = Some v)
  /\ (default ∅ (googleProvider conf ≫= headers) !! API_KEY_HEADER = None ->
      buildHeaders apiKey conf !! API_KEY_HEADER = Some apiKey)
  /\ (forall params, lp_config params = conf ->
        reqHeaders (listRequest apiKey params) = buildHeaders apiKey conf)
  /\ (forall params, config params = conf ->
        reqHeaders (queryRequest apiKey params) = buildHeaders apiKey conf).
Proof.
  split; [|split; [|split]].
  - intros h v Hh Hv. by apply (buildHeaders_lookup_host apiKey conf h).
  - apply buildHeaders_lookup_fresh.
  - by intros params <-.
  - by intros params <-.
Qed.

Lemma buildHeaders_api_key_witness :
  buildHeaders "fresh" (hostHeaders {[ API_KEY_HEADER := "host" ]}) !! API_KEY_HEADER
    = Some "host"
  /\ buildHeaders "fresh" (hostHeaders {[ "x-extra" := "1" ]}) !! API_KEY_HEADER
      = Some "fresh"
  /\ buildHeaders "fresh" None !! API_KEY_HEADER = Some "fresh".
Proof.
  split; [|split].
  - destruct (buildHeaders_api_key "fresh" (hostHeaders {[ API_KEY_HEADER := "host" ]}))
      as (Hhost & _).
    apply (Hhost {[ API_KEY_HEADER := "host" ]}); reflexivity.
  - destruct (buildHeaders_api_key "fresh" (hostHeaders {[ "x-extra" := "1" ]}))
      as (_ & Hfresh & _).
    apply Hfresh. reflexivity.
  - destruct (buildHeaders_api_key "fresh" None) as (_ & Hfresh & _).
    apply Hfresh. reflexivity.
Defined.

(** C1 (as stated) fails: a host header named like the API-key header
    replaces the freshly resolved key. *)
Lemma buildHeaders_host_overrides_key :
  buildHeaders "fresh" (hostHeaders {[ API_KEY_HEADER := "host" ]}) !! API_KEY_HEADER
  = Some "host"
  /\ buildHeaders "fresh" (hostHeaders {[ API_KEY_HEADER := "host" ]}) !! API_KEY_HEADER
     <> Some "fresh".
Proof.
  assert (buildHeaders "fresh" (hostHeaders {[ API_KEY_HEADER := "host" ]})
            !! API_KEY_HEADER = Some "host") as H.
  { apply (buildHeaders_lookup_host _ _ {[ API_KEY_HEADER := "host" ]}); reflexivity. }
  rewrite H. split; [reflexivity | discriminate].
Qed.

(** ** The store cap *)

Lemma maxStores_le_limit (pluginCfg : option PluginCfg) :
  maxStores pluginCfg <= MAX_STORES_HARD_LIMIT.
Proof. unfold maxStores. lia. Qed.

Lemma maxStores_configured (pluginCfg : option PluginCfg) (n : Z) :
  pluginCfg ≫= maxStoresPerQuery = Some n ->
  maxStores pluginCfg = Z.min n MAX_STORES_HARD_LIMIT.
Proof. intros Hn. unfold maxStores. by rewrite Hn. Qed.

Lemma maxStores_default (pluginCfg : option PluginCfg) :
  pluginCfg ≫= maxStoresPerQuery = None ->
  maxStores pluginCfg = MAX_STORES_HARD_LIMIT.
Proof. intros Hn. unfold maxStores. rewrite Hn. simpl. lia. Qed.

Lemma slice0_take {A} (arr : list A) (n : Z) :
  0 <= n -> slice0 arr n = take (Z.to_nat n) arr.
Proof.
  intros Hn. unfold slice0.
  destruct (n <? 0) eqn:Hneg; [lia|].
  destruct (Z.min_spec n (Z.of_nat (length arr))) as [[Hlt ->]|[Hge ->]]; [done|].
  rewrite Nat2Z.id, firstn_all.
  symmetry. apply take_ge. lia.
Qed.

(** C2 (as amended). When [maxStoresPerQuery] is absent or at least 1, the
    effective cap lies between 1 and the hard limit; whatever the
    configuration, it is at most the hard limit. *)
Theorem maxStores_range (pluginCfg : option PluginCfg) :
  maxStores pluginCfg <= MAX_STORES_HARD_LIMIT
  /\ (pluginCfg ≫= maxStoresPerQuery = None ->
      1 <= maxStores pluginCfg <= MAX_STORES_HARD_LIMIT)
  /\ (forall n, pluginCfg ≫= maxStoresPerQuery = Some n -> 1 <= n ->
        1 <= maxStores pluginCfg <= MAX_STORES_HARD_LIMIT).
Proof.
  split; [apply maxStores_le_limit|]. split.
  - intros Hn. rewrite (maxStores_default _ Hn). unfold MAX_STORES_HARD_LIMIT. lia.
  - intros n Hn Hpos. rewrite (maxStores_configured _ _ Hn).
    unfold MAX_STORES_HARD_LIMIT. lia.
Qed.

Lemma maxStores_range_witness :
  1 <= maxStores None <= MAX_STORES_HARD_LIMIT
  /\ 1 <= maxStores (capCfg 3) <= MAX_STORES_HARD_LIMIT
  /\ 1 <= maxStores (capCfg 9) <= MAX_STORES_HARD_LIMIT.
Proof.
  split; [|split].
  - destruct (maxStores_range None) as (_ & Habsent & _).
    apply Habsent. reflexivity.
  - destruct (maxStores_range (capCfg 3)) as (_ & _ & Hset).
    apply (Hset 3); [reflexivity | lia].
  - destruct (maxStores_range (capCfg 9)) as (_ & _ & Hset).
    apply (Hset 9); [reflexivity | lia].
Defined.

(** C2 (as stated) fails: a configured 0 gives the cap 0, a configured -2
    the cap -2, both below 1. *)
Lemma maxStores_below_one :
  maxStores (capCfg 0) = 0 /\ maxStores (capCfg (-2)) = -2
  /\ ~ (1 <= maxStores (capCfg 0) <= MAX_STORES_HARD_LIMIT).
Proof.
  split; [reflexivity|]. split; [reflexivity|].
  vm_compute. intros [Hle _]. by apply Hle.
Qed.

(** C3. A [maxStoresPerQuery] above the hard limit gives the hard limit as
    the cap, and [queryFileSearch] then keeps the first
    [MAX_STORES_HARD_LIMIT] stores; the cap never exceeds the hard limit;
    and a configured value can only lower the cap: the cap is never above
    the configured value, and without one it is the hard limit. *)
Theorem maxStores_hard_limit (pluginCfg : option PluginCfg) :
  maxStores pluginCfg <= MAX_STORES_HARD_LIMIT
  /\ (forall n, pluginCfg ≫= maxStoresPerQuery = Some n ->
        MAX_STORES_HARD_LIMIT < n ->
        maxStores pluginCfg = MAX_STORES_HARD_LIMIT
        /\ maxStores pluginCfg <> n
        /\ forall stores,
             storeNames stores pluginCfg
             = normalizeStoreName <$> take (Z.to_nat MAX_STORES_HARD_LIMIT) stores)
  /\ (forall n, pluginCfg ≫= maxStoresPerQuery = Some n -> maxStores pluginCfg <= n)
  /\ (pluginCfg ≫= maxStoresPerQuery = None ->
      maxStores pluginCfg = MAX_STORES_HARD_LIMIT).
Proof.
  split; [apply maxStores_le_limit|]. split; [|split].
  - intros n Hn Hgt.
    assert (maxStores pluginCfg = MAX_STORES_HARD_LIMIT) as Hcap.
    { rewrite (maxStores_configured _ _ Hn). lia. }
    split; [exact Hcap|]. split; [lia|].
    intros stores. unfold storeNames. rewrite Hcap.
    by rewrite slice0_take.
  - intros n Hn. rewrite (maxStores_configured _ _ Hn). lia.
  - apply maxStores_default.
Qed.

Lemma maxStores_hard_limit_witness :
  maxStores (capCfg 9) = MAX_STORES_HARD_LIMIT
  /\ storeNames ["a"; "b"; "c"; "d"; "e"; "f"; "g"] (capCfg 9)
     = ["fileSearchStores/a"; "fileSearchStores/b"; "fileSearchStores/c";
        "fileSearchStores/d"; "fileSearchStores/e"]
  /\ maxStores (capCfg 3) <= 3
  /\ maxStores None = MAX_STORES_HARD_LIMIT.
Proof.
  destruct (maxStores_hard_limit (capCfg 9)) as (_ & Habove & _).
  destruct (Habove 9) as (Hcap & _ & Hnames); [reflexivity | reflexivity |].
  split; [exact Hcap|]. split; [rewrite Hnames; reflexivity|]. split.
  - destruct (maxStores_hard_limit (capCfg 3)) as (_ & _ & Hlower & _).
    apply (Hlower 3). reflexivity.
  - destruct (maxStores_hard_limit None) as (_ & _ & _ & Hnone).
    apply Hnone. reflexivity.
Defined.

(** ** The model name *)

Lemma truthy_true_iff (s : string) : JsString.truthy s = true <-> s <> "".
Proof. destruct s; simpl; split; done. Qed.





(** ** Running the client *)

Ltac unfold_M :=
  unfold run, doFetch, withTimeout, clear, finally, lift, throw, emit,
    mbind, M_bind, mret, M_ret in *.

Lemma requests_snoc (tr : list Event) (ev : Event) :
  isFetch ev = false -> requests (tr ++ [ev]) = requests tr.
Proof.
  intros Hev. unfold requests. rewrite omap_app. simpl.
  destruct ev; simpl in *; try discriminate; by rewrite app_nil_r.
Qed.

Section Credential.

Variable w : World.
Variable conf : option OpenClawConfig.
Variable dir : option string.

Local Abbreviation p := {| provider := "google"; cfg := conf; agentDir := dir |}.

Lemma resolveApiKey_ok (key : string) (tr : list Event) :
  resolvesTo w conf dir key ->
  resolveApiKey w conf dir tr = (inr key, tr ++ [EvResolveApiKey p]).
Proof.
  intros (ma & auth & Hma & Hauth & Hkey).
  unfold resolveApiKey, loadModelAuth. unfold_M.
  rewrite Hma, Hauth, Hkey. reflexivity.
Qed.

(** The resolver either hands out a key, or the call ends there: with the
    error of [loadModelAuth] or with the resolver's own, and without any
    request to the provider. *)
Lemma resolveApiKey_cases (tr : list Event) :
  (exists key, resolvesTo w conf dir key
               /\ resolveApiKey w conf dir tr = (inr key, tr ++ [EvResolveApiKey p]))
  \/ (exists e tr',
        resolveApiKey w conf dir tr = (inl e, tr')
        /\ requests tr' = requests tr
        /\ (forall key, ~ resolvesTo w conf dir key)
        /\ ((e = Error "Internal error: model-auth not available" /\ tr' = tr)
            \/ (exists m, e = CredentialError m) /\ tr' = tr ++ [EvResolveApiKey p])).
Proof.
  destruct (modelAuth w) as [ma|] eqn:Hma.
  - destruct (resolveApiKeyForProvider ma p) as [m|auth] eqn:Hauth.
    + right. exists (CredentialError m), (tr ++ [EvResolveApiKey p]).
      split; [|split; [|split]].
      * unfold resolveApiKey, loadModelAuth. unfold_M. by rewrite Hma, Hauth.
      * by apply requests_snoc.
      * intros key (ma' & auth' & Hma' & Hauth' & _).
        rewrite Hma in Hma'. injection Hma' as <-.
        by rewrite Hauth in Hauth'.
      * right. split; [by exists m | done].
    + destruct (requireApiKey ma auth "google") as [m|key] eqn:Hkey.
      * right. exists (CredentialError m), (tr ++ [EvResolveApiKey p]).
        split; [|split; [|split]].
        -- unfold resolveApiKey, loadModelAuth. unfold_M.
           by rewrite Hma, Hauth, Hkey.
        -- by apply requests_snoc.
        -- intros key (ma' & auth' & Hma' & Hauth' & Hkey').
           rewrite Hma in Hma'. injection Hma' as <-.
           rewrite Hauth in Hauth'. injection Hauth' as <-.
           by rewrite Hkey in Hkey'.
        -- right. split; [by exists m | done].
      * left. exists key. split.
        -- by exists ma, auth.
        -- apply resolveApiKey_ok. by exists ma, auth.
  - right. exists (Error "Internal error: model-auth not available"), tr.
    split; [|split; [|split]].
    + unfold resolveApiKey, loadModelAuth. unfold_M. by rewrite Hma.
    + done.
    + intros key (ma' & auth' & Hma' & _). by rewrite Hma in Hma'.
    + by left.
Qed.

Lemma resolvesTo_functional (k1 k2 : string) :
  resolvesTo w conf dir k1 -> resolvesTo w conf dir k2 -> k1 = k2.
Proof.
  intros (ma & auth & Hma & Hauth & Hkey) (ma' & auth' & Hma' & Hauth' & Hkey').
  rewrite Hma in Hma'. injection Hma' as <-.
  rewrite Hauth in Hauth'. injection Hauth' as <-.
  rewrite Hkey in Hkey'. by injection Hkey'.
Qed.

End Credential.

Section Query.

Variable w : World.
Variable params : QueryParams.

Local Abbreviation p :=
  {| provider := "google"; cfg := config params; agentDir := qp_agentDir params |}.
Local Abbreviation names := (storeNames (stores params) (pluginCfg params)).
Local Abbreviation deadline :=
  (default DEFAULT_TIMEOUT_MS (pluginCfg params ≫= timeoutMs)).

Lemma queryFileSearch_unresolved (e : Thrown) (tr tr' : list Event) :
  resolveApiKey w (config params) (qp_agentDir params) tr = (inl e, tr') ->
  queryFileSearch w params tr = (inl e, tr').
Proof.
  intros Hres. unfold queryFileSearch. unfold mbind at 1. unfold M_bind.
  by rewrite Hres.
Qed.

Lemma queryFileSearch_no_stores (key : string) :
  resolvesTo w (config params) (qp_agentDir params) key ->
  names = [] ->
  run (queryFileSearch w params)
  = (inl (Error "At least one store name is required"), [EvResolveApiKey p]).
Proof.
  intros Hkey Hnames. unfold run, queryFileSearch. unfold mbind at 1. unfold M_bind.
  rewrite (resolveApiKey_ok _ _ _ key) by done.
  by rewrite Hnames.
Qed.

Lemma names_length_nonzero : names <> [] -> (length names =? 0)%nat = false.
Proof. intros Hne. destruct names; [done | reflexivity]. Qed.

Lemma queryFileSearch_trace (key : string) :
  resolvesTo w (config params) (qp_agentDir params) key ->
  names <> [] ->
  snd (run (queryFileSearch w params))
  = [EvResolveApiKey p; EvSetTimeout deadline; EvFetch (queryRequest key params);
     EvClearTimeout].
Proof.
  intros Hkey Hnames. unfold run, queryFileSearch. unfold mbind at 1. unfold M_bind.
  rewrite (resolveApiKey_ok _ _ _ key) by done.
  rewrite names_length_nonzero by done. unfold_M. simpl.
  destruct (fetch w (queryRequest key params)) as [reason|res]; [done|].
  destruct (Res.ok res); simpl; [|done].
  by destruct (Res.json res).
Qed.

Lemma queryFileSearch_rejected (key reason : string) :
  resolvesTo w (config params) (qp_agentDir params) key ->
  names <> [] ->
  fetch w (queryRequest key params) = Rejected reason ->
  fst (run (queryFileSearch w params)) = inl (FetchError reason).
Proof.
  intros Hkey Hnames Hfetch. unfold run, queryFileSearch. unfold mbind at 1. unfold M_bind.
  rewrite (resolveApiKey_ok _ _ _ key) by done.
  rewrite names_length_nonzero by done. unfold_M. simpl.
  by rewrite Hfetch.
Qed.

Lemma queryFileSearch_not_ok (key : string) (res : Res.Response) :
  resolvesTo w (config params) (qp_agentDir params) key ->
  names <> [] ->
  fetch w (queryRequest key params) = Resolved res ->
  Res.ok res = false ->
  fst (run (queryFileSearch w params))
  = inl (Error ("Gemini generateContent failed: "
                +:+ JsString.of_N (Res.status res) +:+ " " +:+ Res.text res)).
Proof.
  intros Hkey Hnames Hfetch Hok. unfold run, queryFileSearch. unfold mbind at 1. unfold M_bind.
  rewrite (resolveApiKey_ok _ _ _ key) by done.
  rewrite names_length_nonzero by done. unfold_M. simpl.
  by rewrite Hfetch, Hok.
Qed.

Lemma queryFileSearch_ok (key : string) (res : Res.Response) (data : Api.JsonBody) :
  resolvesTo w (config params) (qp_agentDir params) key ->
  names <> [] ->
  fetch w (queryRequest key params) = Resolved res ->
  Res.ok res = true ->
  Res.json res = inr data ->
  fst (run (queryFileSearch w params))
  = inr {| answer := extractAnswer (Api.candidates data ≫= head);
           sources := extractSources (Api.candidates data ≫= head) |}.
Proof.
  intros Hkey Hnames Hfetch Hok Hjson. unfold run, queryFileSearch. unfold mbind at 1. unfold M_bind.
  rewrite (resolveApiKey_ok _ _ _ key) by done.
  rewrite names_length_nonzero by done. unfold_M. simpl.
  by rewrite Hfetch, Hok, Hjson.
Qed.

End Query.

Section List.

Variable w : World.
Variable params : ListParams.

Lemma listFileSearchStores_not_ok (key : string) (res : Res.Response) :
  resolvesTo w (lp_config params) (lp_agentDir params) key ->
  fetch w (listRequest key params) = Resolved res ->
  Res.ok res = false ->
  fst (run (listFileSearchStores w params))
  = inl (Error ("Gemini listFileSearchStores failed: "
                +:+ JsString.of_N (Res.status res) +:+ " " +:+ Res.text res)).
Proof.
  intros Hkey Hfetch Hok. unfold run, listFileSearchStores. unfold mbind at 1. unfold M_bind.
  rewrite (resolveApiKey_ok _ _ _ key) by done.
  unfold_M. simpl. by rewrite Hfetch, Hok.
Qed.

Lemma listFileSearchStores_ok (key : string) (res : Res.Response) (data : Api.JsonBody) :
  resolvesTo w (lp_config params) (lp_agentDir params) key ->
  fetch w (listRequest key params) = Resolved res ->
  Res.ok res = true ->
  Res.json res = inr data ->
  fst (run (listFileSearchStores w params))
  = inr (default [] (Api.fileSearchStores data)).
Proof.
  intros Hkey Hfetch Hok Hjson. unfold run, listFileSearchStores. unfold mbind at 1. unfold M_bind.
  rewrite (resolveApiKey_ok _ _ _ key) by done.
  unfold_M. simpl. by rewrite Hfetch, Hok, Hjson.
Qed.

End List.

(** ** Extraction of the result *)

Lemma head_firstCandidate (data : Api.JsonBody) :
  Api.candidates data ≫= head = Spec.firstCandidate data.
Proof.
  unfold Spec.firstCandidate.
  destruct (Api.candidates data) as [[|c cs]|]; reflexivity.
Qed.

Lemma concat_texts (ps : list Api.ContentPart) :
  JsString.join "" ((fun part => default "" (Api.text part)) <$> ps)
  = foldr String.append "" (omap Api.text ps).
Proof.
  rewrite join_empty_sep.
  induction ps as [|[[t|]] ps IH]; csimpl; [done | by rewrite IH | exact IH].
Qed.

Lemma extractAnswer_spec (data : Api.JsonBody) :
  extractAnswer (Api.candidates data ≫= head) = Spec.answer data.
Proof.
  rewrite head_firstCandidate. unfold extractAnswer, Spec.answer, Spec.textParts.
  destruct (Spec.firstCandidate data) as [c|]; [|done]. simpl.
  destruct (Api.content c) as [[[ps|]]|]; simpl; [|done..].
  by rewrite concat_texts.
Qed.

Lemma truthyOpt_nonEmpty (o : option string) :
  truthyOpt o = true <-> Spec.nonEmpty o.
Proof.
  unfold Spec.nonEmpty. destruct o as [s|]; simpl.
  - rewrite truthy_true_iff. split.
    + intros Hs. by exists s.
    + by intros (s' & [= <-] & Hs).
  - split; [done | by intros (s' & [=] & _)].
Qed.

(** One turn of the loop appends the source of the chunk, if it has one. *)
Lemma pushSource_spec (acc : list Source) (chunk : Api.GroundingChunk) :
  pushSource acc chunk = acc ++ option_list (Spec.source chunk).
Proof.
  unfold pushSource, Spec.source.
  destruct (Api.retrievedContext chunk) as [ctx|]; [|by rewrite app_nil_r].
  destruct (decide _) as [Hyes|Hno].
  - assert (truthyOpt (Api.uri ctx) || truthyOpt (Api.title ctx) = true) as ->.
    { apply orb_true_iff. by rewrite !truthyOpt_nonEmpty. }
    simpl. by destruct (Api.title ctx), (Api.uri ctx).
  - assert (truthyOpt (Api.uri ctx) || truthyOpt (Api.title ctx) = false) as ->.
    { apply not_true_is_false. intros Ht. apply Hno.
      apply orb_true_iff in Ht. by rewrite !truthyOpt_nonEmpty in Ht. }
    by rewrite app_nil_r.
Qed.

Lemma fold_pushSource (chunks : list Api.GroundingChunk) (acc : list Source) :
  fold_left pushSource chunks acc = acc ++ omap Spec.source chunks.
Proof.
  revert acc. induction chunks as [|chunk chunks IH]; intros acc; simpl.
  - by rewrite app_nil_r.
  - rewrite IH, pushSource_spec, <- app_assoc. f_equal.
    by destruct (Spec.source chunk).
Qed.

Lemma extractSources_spec (data : Api.JsonBody) :
  extractSources (Api.candidates data ≫= head) = Spec.sources data.
Proof.
  rewrite head_firstCandidate. unfold extractSources, Spec.sources, Spec.chunks.
  rewrite fold_pushSource. simpl.
  destruct (Spec.firstCandidate data) as [c|]; [|done]. simpl.
  by destruct (Api.groundingMetadata c) as [[[cs|]]|].
Qed.

(** C8. When the provider answers with a success status and a JSON body,
    the result carries as answer the text parts of the first candidate,
    concatenated and trimmed (empty without a candidate), and as sources,
    in chunk order, one source for each grounding chunk of the first
    candidate whose retrieved context has a non-empty URI or title, the
    title falling back to the URI and the URI to the empty string. *)
Theorem queryFileSearch_result (w : World) (params : QueryParams)
    (key : string) (res : Res.Response) (data : Api.JsonBody) :
  resolvesTo w (config params) (qp_agentDir params) key ->
  storeNames (stores params) (pluginCfg params) <> [] ->
  fetch w (queryRequest key params) = Resolved res ->
  Res.ok res = true ->
  Res.json res = inr data ->
  fst (run (queryFileSearch w params))
  = inr {| answer := Spec.answer data; sources := Spec.sources data |}.
Proof.
  intros Hkey Hnames Hfetch Hok Hjson.
  rewrite (queryFileSearch_ok w params key res data) by done.
  by rewrite extractAnswer_spec, extractSources_spec.
Qed.

Lemma queryFileSearch_result_witness :
  fst (run (queryFileSearch (worldWith mockModelAuth (jsonResponse answerBody "" 200))
             (queryOf "what is the answer?" ["my-store"] None)))
  = inr {| answer := "The answer is 42.";
           sources := [ {| title := "Doc A"; uri := "https://example.com/doc" |} ] |}.
Proof.
  rewrite (queryFileSearch_result _ _ "test-api-key"
             (jsonResponse answerBody "" 200) answerBody).
  - reflexivity.
  - exists mockModelAuth,
      {| apiKey := Some "test-api-key"; profileId := None;
         source := "test"; mode := "api-key" |}.
    repeat split; reflexivity.
  - vm_compute. discriminate.
  - reflexivity.
  - reflexivity.
  - reflexivity.
Defined.

(** ** Provider errors *)

Lemma occursIn_failure_message (pre st body : string) :
  occursIn st (pre +:+ st +:+ " " +:+ body)
  /\ occursIn body (pre +:+ st +:+ " " +:+ body).
Proof.
  split.
  - by exists pre, (" " +:+ body).
  - exists (pre +:+ st +:+ " "), "".
    by rewrite append_empty_r, !append_assoc.
Qed.

Lemma mock_resolvesTo (res : Res.Response) (conf : option OpenClawConfig)
    (dir : option string) :
  resolvesTo (worldWith mockModelAuth res) conf dir "test-api-key".
Proof.
  exists mockModelAuth,
    {| apiKey := Some "test-api-key"; profileId := None;
       source := "test"; mode := "api-key" |}.
  repeat split; reflexivity.
Defined.

(** C9. When the provider answers with a non-success status, both
    [listFileSearchStores] and [queryFileSearch] end in an error, never in
    a value, and the message of the error contains the status in decimal
    and the text of the response body. *)
Theorem api_error_message (w : World) (key : string) (res : Res.Response) :
  Res.ok res = false ->
  (forall params,
      resolvesTo w (lp_config params) (lp_agentDir params) key ->
      fetch w (listRequest key params) = Resolved res ->
      exists msg,
        fst (run (listFileSearchStores w params)) = inl (Error msg)
        /\ msg = "Gemini listFileSearchStores failed: "
                 +:+ JsString.of_N (Res.status res) +:+ " " +:+ Res.text res
        /\ occursIn (JsString.of_N (Res.status res)) msg
        /\ occursIn (Res.text res) msg)
  /\ (forall params,
        resolvesTo w (config params) (qp_agentDir params) key ->
        storeNames (stores params) (pluginCfg params) <> [] ->
        fetch w (queryRequest key params) = Resolved res ->
        exists msg,
          fst (run (queryFileSearch w params)) = inl (Error msg)
          /\ msg = "Gemini generateContent failed: "
                   +:+ JsString.of_N (Res.status res) +:+ " " +:+ Res.text res
          /\ occursIn (JsString.of_N (Res.status res)) msg
          /\ occursIn (Res.text res) msg).
Proof.
  intros Hok. split.
  - intros params Hkey Hfetch. eexists. split; [|split; [reflexivity|]].
    + by apply (listFileSearchStores_not_ok w params key res).
    + apply occursIn_failure_message.
  - intros params Hkey Hnames Hfetch. eexists. split; [|split; [reflexivity|]].
    + by apply (queryFileSearch_not_ok w params key res).
    + apply occursIn_failure_message.
Qed.

Lemma api_error_message_witness :
  fst (run (listFileSearchStores (worldWith mockModelAuth (jsonResponse emptyBody "{quota}" 429)) listOf))
  = inl (Error "Gemini listFileSearchStores failed: 429 {quota}")
  /\ fst (run (queryFileSearch (worldWith mockModelAuth (jsonResponse emptyBody "{quota}" 429))
                (queryOf "test" ["s"] None)))
     = inl (Error "Gemini generateContent failed: 429 {quota}")
  /\ occursIn "429" "Gemini generateContent failed: 429 {quota}".
Proof.
  pose (res := jsonResponse emptyBody "{quota}" 429).
  destruct (api_error_message (worldWith mockModelAuth res) "test-api-key" res eq_refl)
    as (Hlist & Hquery).
  destruct (Hlist listOf (mock_resolvesTo res None None) eq_refl)
    as (msg1 & Hrun1 & Hmsg1 & _).
  destruct (Hquery (queryOf "test" ["s"] None) (mock_resolvesTo res None None))
    as (msg2 & Hrun2 & Hmsg2 & Hstatus & _).
  { vm_compute. discriminate. }
  { reflexivity. }
  split; [|split].
  - fold res. rewrite Hrun1, Hmsg1. reflexivity.
  - fold res. rewrite Hrun2, Hmsg2. reflexivity.
  - rewrite Hmsg2 in Hstatus. exact Hstatus.
Defined.

(** ** Truncation of the store list *)

Lemma storeNames_take (names : list string) (pcfg : option PluginCfg) :
  0 <= maxStores pcfg ->
  storeNames names pcfg = normalizeStoreName <$> take (Z.to_nat (maxStores pcfg)) names.
Proof. intros Hcap. unfold storeNames. by rewrite slice0_take. Qed.

Lemma storeNames_truncated (names : list string) (pcfg : option PluginCfg) :
  0 <= maxStores pcfg ->
  storeNames (take (Z.to_nat (maxStores pcfg)) names) pcfg = storeNames names pcfg.
Proof.
  intros Hcap. rewrite !storeNames_take by done.
  by rewrite take_take, Nat.min_id.
Qed.

Lemma queryFileSearch_withStores (w : World) (params : QueryParams) (names : list string) :
  storeNames names (pluginCfg params) = storeNames (stores params) (pluginCfg params) ->
  run (queryFileSearch w (withStores params names)) = run (queryFileSearch w params).
Proof.
  intros Heq. unfold run, queryFileSearch, queryRequest, withStores. simpl.
  by rewrite Heq.
Qed.

Lemma queryFileSearch_requests (w : World) (params : QueryParams) :
  (exists key, resolvesTo w (config params) (qp_agentDir params) key)
  \/ requests (snd (run (queryFileSearch w params))) = [].
Proof.
  destruct (resolveApiKey_cases w (config params) (qp_agentDir params) [])
    as [(key & Hkey & _)|(e & tr & Hres & Hreq & _)].
  - left. by exists key.
  - right. unfold run.
    by rewrite (queryFileSearch_unresolved w params e [] tr).
Qed.

(** C5 (as amended). When the effective cap is at least 1 and the store
    list is longer than the cap, every request that [queryFileSearch] sends
    to the provider names exactly cap stores: the first cap entries of the
    input, normalized, in their order; there is one such request when the
    credential resolves. The truncation raises no error and leaves no mark
    on the result: a success response gives the extracted result, and the
    whole outcome equals that of the call with the list cut down
    beforehand. *)
Theorem queryFileSearch_truncates (w : World) (params : QueryParams) :
  1 <= maxStores (pluginCfg params) ->
  maxStores (pluginCfg params) < Z.of_nat (length (stores params)) ->
  (forall req,
      req ∈ requests (snd (run (queryFileSearch w params))) ->
      body req
      = Some {| contents := [ {| Api.parts := Some [ {| Api.text := Some (query params) |} ] |} ];
                tools := [ {| fileSearch := {| fileSearchStoreNames :=
                    normalizeStoreName
                      <$> take (Z.to_nat (maxStores (pluginCfg params))) (stores params) |} |} ] |})
  /\ length (normalizeStoreName
               <$> take (Z.to_nat (maxStores (pluginCfg params))) (stores params))
     = Z.to_nat (maxStores (pluginCfg params))
  /\ (forall key,
        resolvesTo w (config params) (qp_agentDir params) key ->
        requests (snd (run (queryFileSearch w params))) = [queryRequest key params])
  /\ (forall key res data,
        resolvesTo w (config params) (qp_agentDir params) key ->
        fetch w (queryRequest key params) = Resolved res ->
        Res.ok res = true -> Res.json res = inr data ->
        fst (run (queryFileSearch w params))
        = inr {| answer := Spec.answer data; sources := Spec.sources data |})
  /\ run (queryFileSearch w params)
     = run (queryFileSearch w
              (withStores params
                 (take (Z.to_nat (maxStores (pluginCfg params))) (stores params)))).
Proof.
  intros Hcap Hlong.
  set (cap := Z.to_nat (maxStores (pluginCfg params))).
  assert (storeNames (stores params) (pluginCfg params)
          = normalizeStoreName <$> take cap (stores params)) as Hnames.
  { apply storeNames_take. lia. }
  assert (length (normalizeStoreName <$> take cap (stores params)) = cap) as Hlen.
  { rewrite length_fmap, length_take. subst cap. lia. }
  assert (storeNames (stores params) (pluginCfg params) <> []) as Hne.
  { rewrite Hnames. intros Hnil. rewrite Hnil in Hlen. simpl in Hlen. subst cap. lia. }
  assert (forall key,
             resolvesTo w (config params) (qp_agentDir params) key ->
             requests (snd (run (queryFileSearch w params))) = [queryRequest key params])
    as Hsent.
  { intros key Hkey. by rewrite (queryFileSearch_trace w params key). }
  split; [|split; [|split; [|split]]].
  - intros req Hreq.
    destruct (queryFileSearch_requests w params) as [(key & Hkey)|Hnone].
    + rewrite (Hsent key Hkey) in Hreq. apply list_elem_of_singleton in Hreq as ->.
      unfold queryRequest. simpl. by rewrite Hnames.
    + rewrite Hnone in Hreq. by apply elem_of_nil in Hreq.
  - exact Hlen.
  - exact Hsent.
  - intros key res data Hkey Hfetch Hok Hjson.
    rewrite (queryFileSearch_ok w params key res data) by done.
    by rewrite extractAnswer_spec, extractSources_spec.
  - symmetry. apply queryFileSearch_withStores.
    apply storeNames_truncated. lia.
Qed.

Lemma queryFileSearch_truncates_witness :
  requests (snd (run (queryFileSearch answerWorld sevenStores)))
  = [queryRequest "test-api-key" sevenStores]
  /\ body (queryRequest "test-api-key" sevenStores)
     = Some {| contents := [ {| Api.parts := Some [ {| Api.text := Some "test" |} ] |} ];
               tools := [ {| fileSearch := {| fileSearchStoreNames :=
                   ["fileSearchStores/a"; "fileSearchStores/b"; "fileSearchStores/c"] |} |} ] |}.
Proof.
  destruct (queryFileSearch_truncates answerWorld sevenStores)
    as (Hbody & _ & Hsent & _).
  - vm_compute. discriminate.
  - vm_compute. reflexivity.
  - assert (requests (snd (run (queryFileSearch answerWorld sevenStores)))
            = [queryRequest "test-api-key" sevenStores]) as Hreq.
    { apply Hsent. apply mock_resolvesTo. }
    split; [exact Hreq|].
    rewrite (Hbody (queryRequest "test-api-key" sevenStores)); [reflexivity|].
    rewrite Hreq. apply list_elem_of_singleton. reflexivity.
Defined.

(** C5 (as stated) fails at the cap 0: one store is more than the cap, yet
    the call ends in the validation error and no request is sent. *)
Lemma queryFileSearch_cap_zero :
  maxStores (capCfg 0) < Z.of_nat (length ["a"])
  /\ run (queryFileSearch answerWorld (queryOf "test" ["a"] (capCfg 0)))
     = (inl (Error NO_STORES_MESSAGE),
        [EvResolveApiKey {| provider := "google"; cfg := None; agentDir := None |}])
  /\ requests (snd (run (queryFileSearch answerWorld (queryOf "test" ["a"] (capCfg 0))))) = [].
Proof. split; [reflexivity|]. split; reflexivity. Qed.

(** A negative cap is handed to [slice] as it is, which then counts from the
    back: with the cap -1 all stores but the last are sent. *)
Example queryFileSearch_cap_negative :
  maxStores (capCfg (-1)) = -1
  /\ storeNames ["a"; "b"; "c"; "d"; "e"; "f"; "g"] (capCfg (-1))
     = ["fileSearchStores/a"; "fileSearchStores/b"; "fileSearchStores/c";
        "fileSearchStores/d"; "fileSearchStores/e"; "fileSearchStores/f"].
Proof. split; reflexivity. Qed.

(** ** Validation *)

Lemma storeNames_nil (pcfg : option PluginCfg) : storeNames [] pcfg = [].
Proof. unfold storeNames, slice0. by rewrite take_nil. Qed.

Lemma execute_blank_query (w : World) (api : PluginApi) (ctx : ToolContext)
    (params : gmap string Unknown) :
  (forall s, params !! "query" = Some (UString s) -> JsString.trim s = "") ->
  run (execute w api ctx params) = (inl (Error "query is required"), []).
Proof.
  intros Hblank. unfold run, execute.
  destruct (params !! "query") as [[s| |]|]; try reflexivity.
  by rewrite (Hblank s).
Qed.

Lemma execute_no_stores (w : World) (api : PluginApi) (ctx : ToolContext)
    (params : gmap string Unknown) :
  (forall items, params !! "stores" = Some (UArray items) -> items = []) ->
  run (execute w api ctx params) = (inl (Error "query is required"), [])
  \/ run (execute w api ctx params) = (inl (Error "at least one store is required"), []).
Proof.
  intros Hnone. unfold run, execute.
  destruct (negb _); [by left|]. right.
  destruct (params !! "stores") as [[s|items|]|]; try reflexivity.
  by rewrite (Hnone items).
Qed.

Lemma execute_no_stores_query (w : World) (api : PluginApi) (ctx : ToolContext)
    (params : gmap string Unknown) (q : string) :
  params !! "query" = Some (UString q) ->
  JsString.trim q <> "" ->
  (forall items, params !! "stores" = Some (UArray items) -> items = []) ->
  run (execute w api ctx params) = (inl (Error "at least one store is required"), []).
Proof.
  intros Hq Hne Hnone. unfold run, execute. rewrite Hq.
  apply truthy_true_iff in Hne. rewrite Hne. cbn [negb].
  destruct (params !! "stores") as [[s|items|]|]; try reflexivity.
  by rewrite (Hnone items).
Qed.

Lemma queryFileSearch_empty_names (w : World) (params : QueryParams) :
  storeNames (stores params) (pluginCfg params) = [] ->
  requests (snd (run (queryFileSearch w params))) = []
  /\ (exists e, fst (run (queryFileSearch w params)) = inl e)
  /\ (fst (run (queryFileSearch w params)) = inl (Error NO_STORES_MESSAGE) ->
      exists key, resolvesTo w (config params) (qp_agentDir params) key).
Proof.
  intros Hnames.
  destruct (resolveApiKey_cases w (config params) (qp_agentDir params) [])
    as [(key & Hkey & _)|(e & tr & Hres & Hreq & _ & Horigin)].
  - rewrite (queryFileSearch_no_stores w params key) by done.
    split; [done|]. split; [by eexists | by exists key].
  - unfold run. rewrite (queryFileSearch_unresolved w params e [] tr) by done.
    split; [done|]. split; [by eexists|]. simpl. intros [= ->].
    by destruct Horigin as [[[=] _]|[[m [=]] _]].
Qed.

(** C4 (as amended). A blank query makes the tool layer fail with "query is
    required" before anything is done; an empty store list makes the tool
    layer fail before anything is done with "at least one store is
    required" (with "query is required" when the query is blank as well);
    and [queryFileSearch] itself, given an empty store list, fails without
    a request to the provider: with the message "At least one store name
    is required" when the credential resolves, and with the failure of the
    credential resolution otherwise. *)
Theorem query_validation (w : World) :
  (forall api ctx params,
      (forall s, params !! "query" = Some (UString s) -> JsString.trim s = "") ->
      run (execute w api ctx params) = (inl (Error "query is required"), []))
  /\ occursIn "query" "query is required"
  /\ (forall api ctx params,
        (forall items, params !! "stores" = Some (UArray items) -> items = []) ->
        run (execute w api ctx params) = (inl (Error "query is required"), [])
        \/ run (execute w api ctx params)
           = (inl (Error "at least one store is required"), []))
  /\ (forall api ctx params q,
        params !! "query" = Some (UString q) ->
        JsString.trim q <> "" ->
        (forall items, params !! "stores" = Some (UArray items) -> items = []) ->
        run (execute w api ctx params)
        = (inl (Error "at least one store is required"), []))
  /\ occursIn "store" "at least one store is required"
  /\ (forall params,
        stores params = [] ->
        requests (snd (run (queryFileSearch w params))) = []
        /\ (exists e, fst (run (queryFileSearch w params)) = inl e)
        /\ (forall key,
              resolvesTo w (config params) (qp_agentDir params) key ->
              fst (run (queryFileSearch w params)) = inl (Error NO_STORES_MESSAGE))
        /\ ((forall key, ~ resolvesTo w (config params) (qp_agentDir params) key) ->
            exists e,
              fst (run (resolveApiKey w (config params) (qp_agentDir params))) = inl e
              /\ fst (run (queryFileSearch w params)) = inl e))
  /\ occursIn "store" NO_STORES_MESSAGE.
Proof.
  split; [apply execute_blank_query|].
  split; [by exists "", " is required"|].
  split; [apply execute_no_stores|].
  split; [apply execute_no_stores_query|].
  split; [by exists "at least one ", " is required"|].
  split; [|by exists "At least one ", " name is required"].
  intros params Hstores.
  assert (storeNames (stores params) (pluginCfg params) = []) as Hnames.
  { rewrite Hstores. apply storeNames_nil. }
  destruct (queryFileSearch_empty_names w params Hnames) as (Hreq & Herr & _).
  split; [exact Hreq|]. split; [exact Herr|]. split.
  - intros key Hkey. by rewrite (queryFileSearch_no_stores w params key).
  - intros Hnokey.
    destruct (resolveApiKey_cases w (config params) (qp_agentDir params) [])
      as [(key & Hkey & _)|(e & tr & Hres & _)].
    + by destruct (Hnokey key).
    + exists e. unfold run.
      rewrite (queryFileSearch_unresolved w params e [] tr) by done.
      by rewrite Hres.
Qed.

Lemma query_validation_witness :
  run (execute answerWorld noApi noCtx (toolParams "   " ["s"]))
  = (inl (Error "query is required"), [])
  /\ run (execute answerWorld noApi noCtx (toolParams "q" []))
     = (inl (Error "at least one store is required"), [])
  /\ requests (snd (run (queryFileSearch answerWorld (queryOf "test" [] None)))) = []
  /\ fst (run (queryFileSearch answerWorld (queryOf "test" [] None)))
     = inl (Error NO_STORES_MESSAGE).
Proof.
  destruct (query_validation answerWorld) as (Hquery & _ & _ & Htool & _ & Hcore & _).
  split; [|split].
  - apply Hquery. intros s Hs. vm_compute in Hs. injection Hs as <-. reflexivity.
  - apply (Htool noApi noCtx (toolParams "q" []) "q").
    + reflexivity.
    + vm_compute. discriminate.
    + intros items Hitems. vm_compute in Hitems. by injection Hitems as <-.
  - destruct (Hcore (queryOf "test" [] None) eq_refl) as (Hreq & _ & Hmsg & _).
    split; [exact Hreq|]. apply (Hmsg "test-api-key"). apply mock_resolvesTo.
Defined.

(** C4 (as stated) fails: with an empty store list and no credential the
    core fails with the resolver's error, not with a validation failure;
    and the message of the validation failure begins with a capital
    letter. *)
Lemma query_validation_claim_fails :
  stores (queryOf "test" [] None) = []
  /\ fst (run (queryFileSearch noCredentialWorld (queryOf "test" [] None)))
     = inl (CredentialError "No API key found for provider google")
  /\ fst (run (queryFileSearch answerWorld (queryOf "test" [] None)))
     = inl (Error "At least one store name is required")
  /\ fst (run (queryFileSearch answerWorld (queryOf "test" [] None)))
     <> inl (Error "at least one store name is required").
Proof.
  split; [reflexivity|]. split; [reflexivity|]. split; [reflexivity|].
  vm_compute. discriminate.
Qed.

(** C10. [queryFileSearch] consults the credential resolver before it looks
    at the store list. So when the list is empty after truncation: no
    request is sent; the validation error is the outcome when the
    credential resolves, and then the resolver has been consulted; a
    failure of the resolution is the outcome otherwise, in place of the
    validation error; hence the validation error is seen only if the
    credential resolves. *)
Theorem queryFileSearch_credential_first (w : World) (params : QueryParams) :
  storeNames (stores params) (pluginCfg params) = [] ->
  requests (snd (run (queryFileSearch w params))) = []
  /\ (forall key,
        resolvesTo w (config params) (qp_agentDir params) key ->
        run (queryFileSearch w params)
        = (inl (Error NO_STORES_MESSAGE),
           [EvResolveApiKey {| provider := "google"; cfg := config params;
                               agentDir := qp_agentDir params |}]))
  /\ (forall e tr,
        run (resolveApiKey w (config params) (qp_agentDir params)) = (inl e, tr) ->
        run (queryFileSearch w params) = (inl e, tr)
        /\ e <> Error NO_STORES_MESSAGE)
  /\ (fst (run (queryFileSearch w params)) = inl (Error NO_STORES_MESSAGE) ->
      exists key, resolvesTo w (config params) (qp_agentDir params) key).
Proof.
  intros Hnames.
  destruct (queryFileSearch_empty_names w params Hnames) as (Hreq & _ & Honly).
  split; [exact Hreq|]. split; [|split; [|exact Honly]].
  - intros key Hkey. by apply (queryFileSearch_no_stores w params key).
  - intros e tr Hres. unfold run in *. split.
    + by apply queryFileSearch_unresolved.
    + destruct (resolveApiKey_cases w (config params) (qp_agentDir params) [])
        as [(key & _ & Hok)|(e' & tr' & Hres' & _ & _ & Horigin)].
      * rewrite Hok in Hres. discriminate Hres.
      * rewrite Hres' in Hres. injection Hres as <- <-.
        by destruct Horigin as [[-> _]|[[m ->] _]].
Qed.

Lemma queryFileSearch_credential_first_witness :
  run (queryFileSearch answerWorld (queryOf "test" ["a"] (capCfg 0)))
  = (inl (Error NO_STORES_MESSAGE),
     [EvResolveApiKey {| provider := "google"; cfg := None; agentDir := None |}])
  /\ run (queryFileSearch noCredentialWorld (queryOf "test" [] None))
     = (inl (CredentialError "No API key found for provider google"),
        [EvResolveApiKey {| provider := "google"; cfg := None; agentDir := None |}])
  /\ requests (snd (run (queryFileSearch noCredentialWorld (queryOf "test" [] None)))) = [].
Proof.
  split; [|split].
  - destruct (queryFileSearch_credential_first answerWorld
                (queryOf "test" ["a"] (capCfg 0)) eq_refl) as (_ & Hvalid & _).
    apply (Hvalid "test-api-key"). apply mock_resolvesTo.
  - destruct (queryFileSearch_credential_first noCredentialWorld
                (queryOf "test" [] None) eq_refl) as (_ & _ & Hfail & _).
    apply Hfail. reflexivity.
  - destruct (queryFileSearch_credential_first noCredentialWorld
                (queryOf "test" [] None) eq_refl) as (Hreq & _).
    exact Hreq.
Defined.

(** * Further properties of the client *)

(** ** More on strings *)

Section MoreStringFacts.

Import JsString.

Lemma take_prefix (n : nat) (s : string) : exists rest, s = take n s +:+ rest.
Proof.
  revert s. induction n as [|n IH]; intros s.
  - by exists s.
  - destruct s as [|c s]; [by exists ""|].
    destruct (IH s) as (rest & Hrest). exists rest.
    simpl. by rewrite append_cons, <- Hrest.
Qed.

Lemma occursIn_cons (p : string) (c : ascii) (s : string) :
  occursIn p s -> occursIn p (String c s).
Proof.
  intros (a & b & ->). exists (String c a), b. by rewrite append_cons.
Qed.

Lemma occursIn_cons_inv (p : string) (c : ascii) (s : string) :
  occursIn p (String c s) -> String.prefix p (String c s) = true \/ occursIn p s.
Proof.
  intros (a & b & Hab). destruct a as [|x a].
  - left. apply prefix_true_iff. by exists b.
  - right. rewrite append_cons in Hab. injection Hab as _ ->. by exists a, b.
Qed.

Lemma occursIn_append (p a s b : string) :
  occursIn p s -> occursIn p (a +:+ s +:+ b).
Proof.
  intros (x & y & ->). exists (a +:+ x), (y +:+ b).
  by rewrite !append_assoc.
Qed.

Lemma occursIn_trans (p q s : string) :
  occursIn p q -> occursIn q s -> occursIn p s.
Proof. intros Hpq (a & b & ->). by apply occursIn_append. Qed.

Lemma occursIn_refl (s : string) : occursIn s s.
Proof. exists "", "". by rewrite append_empty_r. Qed.

Lemma occursIn_prefix (p s rest : string) : occursIn p s -> occursIn p (s +:+ rest).
Proof. intros H. by apply (occursIn_append p "" s rest). Qed.

Lemma occursIn_suffix (p a s : string) : occursIn p s -> occursIn p (a +:+ s).
Proof.
  intros H. rewrite <- (append_empty_r s). by apply occursIn_append.
Qed.

Lemma indexOf_empty (p : string) :
  indexOf p "" = if String.prefix p "" then Some 0%nat else None.
Proof. reflexivity. Qed.

Lemma indexOf_cons (p : string) (c : ascii) (s : string) :
  indexOf p (String c s)
  = if String.prefix p (String c s) then Some 0%nat else S <$> indexOf p s.
Proof. reflexivity. Qed.

Lemma prefix_of_empty (p : string) : String.prefix p "" = true -> p = "".
Proof. by destruct p. Qed.

Lemma occursIn_empty (p : string) : occursIn p "" -> p = "".
Proof.
  intros (a & b & Hab). destruct a; [|by rewrite append_cons in Hab].
  rewrite append_empty_l in Hab. destruct p; [done | by rewrite append_cons in Hab].
Qed.

(** [indexOf] finds an occurrence when there is one, and the first one. *)
Lemma indexOf_None (p s : string) : indexOf p s = None -> ~ occursIn p s.
Proof.
  induction s as [|c s IH].
  - rewrite indexOf_empty. destruct (String.prefix p "") eqn:Hp; [done|].
    intros _ Hocc. apply occursIn_empty in Hocc as ->. discriminate Hp.
  - rewrite indexOf_cons.
    destruct (String.prefix p (String c s)) eqn:Hp; [done|].
    destruct (indexOf p s) as [i|]; [done|]. intros _ Hocc.
    apply occursIn_cons_inv in Hocc as [Hpre|Hocc]; [congruence|].
    by apply IH.
Qed.

Lemma indexOf_Some (p s : string) (i : nat) :
  indexOf p s = Some i -> exists rest, s = take i s +:+ p +:+ rest.
Proof.
  revert i. induction s as [|c s IH]; intros i.
  - rewrite indexOf_empty. destruct (String.prefix p "") eqn:Hp; [|done].
    intros [= <-]. apply prefix_of_empty in Hp as ->. by exists "".
  - rewrite indexOf_cons. destruct (String.prefix p (String c s)) eqn:Hp.
    + intros [= <-]. apply prefix_true_iff in Hp as (rest & Hrest).
      exists rest. by rewrite Hrest.
    + destruct (indexOf p s) as [j|] eqn:Hj; [|done].
      intros [= <-]. destruct (IH j eq_refl) as (rest & Hrest).
      exists rest. simpl. by rewrite append_cons, <- Hrest.
Qed.

Lemma indexOf_first (p s : string) (i : nat) :
  p <> "" -> indexOf p s = Some i -> ~ occursIn p (take i s).
Proof.
  intros Hp. revert i. induction s as [|c s IH]; intros i.
  - rewrite indexOf_empty. destruct (String.prefix p "") eqn:Hpre; [|done].
    by apply prefix_of_empty in Hpre.
  - rewrite indexOf_cons. destruct (String.prefix p (String c s)) eqn:Hpre.
    + intros [= <-]. simpl. intros Hocc. by apply occursIn_empty in Hocc.
    + destruct (indexOf p s) as [j|] eqn:Hj; [|done].
      intros [= <-]. simpl. intros Hocc.
      apply occursIn_cons_inv in Hocc as [Hpre'|Hocc]; [|by apply (IH j)].
      apply prefix_true_iff in Hpre' as (rest & Hrest).
      destruct (take_prefix j s) as (rest' & Hs).
      assert (String.prefix p (String c s) = true) as Hyes; [|congruence].
      apply prefix_true_iff. exists (rest +:+ rest').
      rewrite Hs at 1. rewrite <- append_cons, Hrest. by rewrite append_assoc.
Qed.

Lemma indexOf_occurs (p s : string) :
  occursIn p s -> exists i, indexOf p s = Some i.
Proof.
  intros Hocc. destruct (indexOf p s) as [i|] eqn:Hi; [by exists i|].
  by destruct (indexOf_None p s Hi).
Qed.

Lemma endsWith_cons_inv (c x : ascii) (t : string) :
  endsWith (String c t) x -> t <> "" -> endsWith t x.
Proof.
  intros (r & Hr) Hne. destruct r as [|y r].
  - rewrite append_empty_l in Hr. injection Hr as _ Ht. by destruct Hne.
  - rewrite append_cons in Hr. injection Hr as _ ->. by exists r.
Qed.

Lemma stripTrailingSlashes_no_slash (s : string) :
  ~ endsWith (stripTrailingSlashes s) "/".
Proof.
  induction s as [|c s IH]; simpl.
  - intros (r & Hr). destruct r; [done | by rewrite append_cons in Hr].
  - destruct (stripTrailingSlashes s) as [|d t] eqn:Hs.
    + destruct (Ascii.eqb c "/") eqn:Hc.
      * intros (r & Hr). destruct r; [done | by rewrite append_cons in Hr].
      * intros (r & Hr). destruct r as [|y r].
        -- rewrite append_empty_l in Hr. injection Hr as ->.
           by rewrite Ascii.eqb_refl in Hc.
        -- rewrite append_cons in Hr. injection Hr as _ Hr.
           destruct r; [done | by rewrite append_cons in Hr].
    + intros Hend. apply IH. by apply (endsWith_cons_inv c).
Qed.

Lemma stripTrailingSlashes_slashes (s : string) :
  exists k, s = stripTrailingSlashes s +:+ repeatChar "/" k.
Proof.
  induction s as [|c s (k & IH)]; [by exists 0%nat|]. simpl.
  destruct (stripTrailingSlashes s) as [|d t] eqn:Hs.
  - rewrite append_empty_l in IH. destruct (Ascii.eqb c "/") eqn:Hc.
    + apply Ascii.eqb_eq in Hc as ->. exists (S k). simpl. by rewrite <- IH.
    + exists k. by rewrite append_cons, append_empty_l, <- IH.
  - exists k. by rewrite append_cons, <- IH.
Qed.

Lemma trimStart_suffix (s : string) : exists a, s = a +:+ trimStart s.
Proof.
  induction s as [|c s (a & IH)]; [by exists ""|]. simpl.
  destruct (is_white_space c); [|by exists ""].
  exists (String c a). by rewrite append_cons, <- IH.
Qed.

Lemma trimEnd_prefix (s : string) : exists b, s = trimEnd s +:+ b.
Proof.
  induction s as [|c s (b & IH)]; [by exists ""|]. simpl.
  destruct (trimEnd s) as [|d t] eqn:Hs.
  - rewrite append_empty_l in IH. destruct (is_white_space c).
    + exists (String c b). by rewrite append_empty_l, <- IH.
    + exists b. by rewrite append_cons, append_empty_l, <- IH.
  - exists b. by rewrite append_cons, <- IH.
Qed.

Lemma trim_occursIn (s : string) : occursIn (trim s) s.
Proof.
  destruct (trimStart_suffix s) as (a & Ha).
  destruct (trimEnd_prefix (trimStart s)) as (b & Hb).
  exists a, b. unfold trim. by rewrite <- Hb.
Qed.

End MoreStringFacts.

(** ** The base URL *)

Lemma default_base_url_plain : ~ occursIn "/openai" DEFAULT_BASE_URL.
Proof. apply indexOf_None. reflexivity. Qed.

(** X1. Whatever the host configuration, the base URL that
    [resolveBaseUrl] returns does not contain the segment "/openai". *)
Theorem resolveBaseUrl_no_openai (conf : option OpenClawConfig) :
  ~ occursIn "/openai" (resolveBaseUrl conf).
Proof.
  unfold resolveBaseUrl.
  destruct (JsString.trim <$> (googleProvider conf ≫= baseUrl)) as [raw|];
    [|apply default_base_url_plain].
  destruct (negb (JsString.truthy raw)); [apply default_base_url_plain|].
  destruct (JsString.indexOf "/openai" (JsString.stripTrailingSlashes raw)) as [i|] eqn:Hi.
  - by apply indexOf_first.
  - by apply indexOf_None.
Qed.

(** X2. A configured base URL that is not blank and does not contain
    "/openai" is used trimmed and without the slashes at its end: the
    result does not end with a slash, and putting the slashes back gives
    the trimmed URL. *)
Theorem resolveBaseUrl_strips_slashes (conf : option OpenClawConfig) (raw : string) :
  googleProvider conf ≫= baseUrl = Some raw ->
  JsString.trim raw <> "" ->
  ~ occursIn "/openai" raw ->
  resolveBaseUrl conf = JsString.stripTrailingSlashes (JsString.trim raw)
  /\ ~ endsWith (resolveBaseUrl conf) "/"
  /\ exists k, JsString.trim raw = resolveBaseUrl conf +:+ repeatChar "/" k.
Proof.
  intros Hraw Hne Hplain.
  assert (resolveBaseUrl conf = JsString.stripTrailingSlashes (JsString.trim raw)) as Heq.
  { unfold resolveBaseUrl. rewrite Hraw. simpl.
    apply truthy_true_iff in Hne. rewrite Hne. simpl.
    destruct (JsString.indexOf _ _) as [i|] eqn:Hi; [|done].
    destruct Hplain. apply indexOf_Some in Hi as (rest & Hrest).
    destruct (stripTrailingSlashes_slashes (JsString.trim raw)) as (k & Hk).
    apply (occursIn_trans _ (JsString.trim raw)); [|apply trim_occursIn].
    rewrite Hk. apply occursIn_prefix. rewrite Hrest.
    by eexists _, _. }
  rewrite Heq. split; [done|]. split.
  - apply stripTrailingSlashes_no_slash.
  - apply stripTrailingSlashes_slashes.
Qed.

Lemma resolveBaseUrl_strips_slashes_witness :
  resolveBaseUrl (hostBaseUrl " https://proxy.example/v1beta// ")
  = "https://proxy.example/v1beta".
Proof.
  destruct (resolveBaseUrl_strips_slashes
              (hostBaseUrl " https://proxy.example/v1beta// ")
              " https://proxy.example/v1beta// ") as (Heq & _).
  - reflexivity.
  - vm_compute. discriminate.
  - apply indexOf_None. reflexivity.
  - rewrite Heq. reflexivity.
Defined.

(** X3. A configured base URL that contains "/openai" (after trimming and
    stripping) is cut at the first occurrence: what [resolveBaseUrl]
    returns, followed by "/openai" and a rest, is the configured URL. *)
Theorem resolveBaseUrl_cuts_openai (conf : option OpenClawConfig) (raw : string) :
  googleProvider conf ≫= baseUrl = Some raw ->
  occursIn "/openai" (JsString.stripTrailingSlashes (JsString.trim raw)) ->
  exists rest,
    JsString.stripTrailingSlashes (JsString.trim raw)
    = resolveBaseUrl conf +:+ "/openai" +:+ rest.
Proof.
  intros Hraw Hocc.
  assert (JsString.truthy (JsString.trim raw) = true) as Hne.
  { destruct (JsString.trim raw); [|done].
    destruct Hocc as (a & b & Hab). simpl in Hab.
    destruct a; [done | by rewrite append_cons in Hab]. }
  apply indexOf_occurs in Hocc as (i & Hi).
  unfold resolveBaseUrl. rewrite Hraw. simpl. rewrite Hne. simpl. rewrite Hi.
  by apply indexOf_Some.
Qed.

Lemma resolveBaseUrl_cuts_openai_witness :
  exists rest,
    "https://generativelanguage.googleapis.com/v1beta/openai/chat"
    = resolveBaseUrl (hostBaseUrl "https://generativelanguage.googleapis.com/v1beta/openai/chat/")
      +:+ "/openai" +:+ rest.
Proof.
  apply (resolveBaseUrl_cuts_openai
           (hostBaseUrl "https://generativelanguage.googleapis.com/v1beta/openai/chat/")
           "https://generativelanguage.googleapis.com/v1beta/openai/chat/").
  - reflexivity.
  - exists "https://generativelanguage.googleapis.com/v1beta", "/chat". reflexivity.
Defined.

(** Without a base URL in the host configuration, at whatever level the
    entry is missing, and with one that is blank, [resolveBaseUrl] returns
    the default base URL. *)
Theorem resolveBaseUrl_default (conf : option OpenClawConfig) :
  (googleProvider conf ≫= baseUrl = None
   \/ exists raw, googleProvider conf ≫= baseUrl = Some raw /\ JsString.trim raw = "") ->
  resolveBaseUrl conf = DEFAULT_BASE_URL.
Proof.
  unfold resolveBaseUrl. intros [->|(raw & -> & Hblank)]; [done|].
  simpl. by rewrite Hblank.
Qed.

Lemma resolveBaseUrl_default_witness :
  resolveBaseUrl None = DEFAULT_BASE_URL
  /\ resolveBaseUrl (Some {| models := Some {| providers := None |} |}) = DEFAULT_BASE_URL
  /\ resolveBaseUrl (hostBaseUrl "   ") = DEFAULT_BASE_URL.
Proof.
  split; [|split].
  - apply (resolveBaseUrl_default None). left. reflexivity.
  - apply (resolveBaseUrl_default (Some {| models := Some {| providers := None |} |})).
    left. reflexivity.
  - apply (resolveBaseUrl_default (hostBaseUrl "   ")).
    right. exists "   ". split; reflexivity.
Defined.

(** ** More on headers *)

(** X4. The headers of a call are the host's provider headers plus the two
    fixed entries: every host header is passed on with the host's value,
    "Content-Type" is "application/json" unless the host sets a header of
    exactly that name, and no other header appears. *)
Theorem buildHeaders_merge (apiKey : string) (conf : option OpenClawConfig) :
  (forall k v,
      default ∅ (googleProvider conf ≫= headers) !! k = Some v ->
      buildHeaders apiKey conf !! k = Some v)
  /\ (default ∅ (googleProvider conf ≫= headers) !! "Content-Type" = None ->
      buildHeaders apiKey conf !! "Content-Type" = Some "application/json")
  /\ (forall k,
        default ∅ (googleProvider conf ≫= headers) !! k = None ->
        k <> "Content-Type" -> k <> API_KEY_HEADER ->
        buildHeaders apiKey conf !! k = None).
Proof.
  unfold buildHeaders. split; [|split].
  - intros k v Hk. by apply lookup_union_Some_l.
  - intros Hk. rewrite lookup_union_r by done.
    rewrite lookup_insert_ne by done. apply lookup_insert_eq.
  - intros k Hk Hct Hkey. rewrite lookup_union_r by done.
    rewrite !lookup_insert_ne by done. apply lookup_empty.
Qed.

Lemma buildHeaders_merge_witness :
  buildHeaders "key" (hostHeaders {[ "content-type" := "text/plain" ]}) !! "content-type"
  = Some "text/plain"
  /\ buildHeaders "key" (hostHeaders {[ "content-type" := "text/plain" ]}) !! "Content-Type"
     = Some "application/json"
  /\ buildHeaders "key" (hostHeaders {[ "content-type" := "text/plain" ]}) !! "Authorization"
     = None.
Proof.
  destruct (buildHeaders_merge "key" (hostHeaders {[ "content-type" := "text/plain" ]}))
    as (Hhost & Hct & Hnone).
  split; [|split].
  - apply Hhost. reflexivity.
  - apply Hct. reflexivity.
  - apply Hnone; [reflexivity | discriminate | discriminate].
Defined.

(** ** More on the store list *)









(** ** The course of a call *)

Section QueryRun.

Variable w : World.
Variable params : QueryParams.

Local Abbreviation p :=
  {| provider := "google"; cfg := config params; agentDir := qp_agentDir params |}.
Local Abbreviation names := (storeNames (stores params) (pluginCfg params)).
Local Abbreviation deadline :=
  (default DEFAULT_TIMEOUT_MS (pluginCfg params ≫= timeoutMs)).

(** The outcome once the credential is there and a store is left. *)
Lemma queryFileSearch_outcome (key : string) :
  resolvesTo w (config params) (qp_agentDir params) key ->
  names <> [] ->
  fst (run (queryFileSearch w params))
  = match fetch w (queryRequest key params) with
    | Rejected reason => inl (FetchError reason)
    | Resolved res =>
        if Res.ok res then
          match Res.json res with
          | inl m => inl (JsonError m)
          | inr data =>
              inr {| answer := extractAnswer (Api.candidates data ≫= head);
                     sources := extractSources (Api.candidates data ≫= head) |}
          end
        else inl (Error ("Gemini generateContent failed: "
                         +:+ JsString.of_N (Res.status res) +:+ " " +:+ Res.text res))
    end.
Proof.
  intros Hkey Hnames. unfold run, queryFileSearch. unfold mbind at 1. unfold M_bind.
  rewrite (resolveApiKey_ok _ _ _ key) by done.
  rewrite names_length_nonzero by done. unfold_M. simpl.
  destruct (fetch w (queryRequest key params)) as [reason|res]; [done|].
  destruct (Res.ok res); simpl; [|done].
  by destruct (Res.json res).
Qed.

Lemma queryFileSearch_traces :
  snd (run (queryFileSearch w params)) = []
  \/ snd (run (queryFileSearch w params)) = [EvResolveApiKey p]
  \/ exists key,
       resolvesTo w (config params) (qp_agentDir params) key
       /\ names <> []
       /\ snd (run (queryFileSearch w params))
          = [EvResolveApiKey p; EvSetTimeout deadline;
             EvFetch (queryRequest key params); EvClearTimeout].
Proof.
  destruct (resolveApiKey_cases w (config params) (qp_agentDir params) [])
    as [(key & Hkey & _)|(e & tr & Hres & _ & _ & Horigin)].
  - destruct (decide (names = [])) as [Hnil|Hne].
    + right. left. by rewrite (queryFileSearch_no_stores w params key).
    + right. right. exists key. split; [done|]. split; [done|].
      by apply queryFileSearch_trace.
  - unfold run. rewrite (queryFileSearch_unresolved w params e [] tr) by done.
    destruct Horigin as [[_ ->]|[_ ->]]; [by left | by right; left].
Qed.

Lemma queryFileSearch_success (r : QueryResult) :
  fst (run (queryFileSearch w params)) = inr r ->
  exists key res data,
    resolvesTo w (config params) (qp_agentDir params) key
    /\ names <> []
    /\ fetch w (queryRequest key params) = Resolved res
    /\ Res.ok res = true
    /\ Res.json res = inr data
    /\ r = {| answer := extractAnswer (Api.candidates data ≫= head);
              sources := extractSources (Api.candidates data ≫= head) |}.
Proof.
  intros Hrun.
  destruct (resolveApiKey_cases w (config params) (qp_agentDir params) [])
    as [(key & Hkey & _)|(e & tr & Hres & _)].
  - destruct (decide (names = [])) as [Hnil|Hne].
    + by rewrite (queryFileSearch_no_stores w params key) in Hrun.
    + rewrite (queryFileSearch_outcome key) in Hrun by done.
      destruct (fetch w (queryRequest key params)) as [reason|res] eqn:Hfetch; [done|].
      destruct (Res.ok res) eqn:Hok; [|done].
      destruct (Res.json res) as [m|data] eqn:Hjson; [done|].
      injection Hrun as <-. by exists key, res, data.
  - unfold run in Hrun.
    by rewrite (queryFileSearch_unresolved w params e [] tr) in Hrun.
Qed.

End QueryRun.

Section ListRun.

Variable w : World.
Variable params : ListParams.

Local Abbreviation p :=
  {| provider := "google"; cfg := lp_config params; agentDir := lp_agentDir params |}.
Local Abbreviation deadline :=
  (default DEFAULT_TIMEOUT_MS (lp_pluginCfg params ≫= timeoutMs)).

Lemma listFileSearchStores_unresolved (e : Thrown) (tr tr' : list Event) :
  resolveApiKey w (lp_config params) (lp_agentDir params) tr = (inl e, tr') ->
  listFileSearchStores w params tr = (inl e, tr').
Proof.
  intros Hres. unfold listFileSearchStores. unfold mbind at 1. unfold M_bind.
  by rewrite Hres.
Qed.

Lemma listFileSearchStores_outcome (key : string) :
  resolvesTo w (lp_config params) (lp_agentDir params) key ->
  run (listFileSearchStores w params)
  = (match fetch w (listRequest key params) with
     | Rejected reason => inl (FetchError reason)
     | Resolved res =>
         if Res.ok res then
           match Res.json res with
           | inl m => inl (JsonError m)
           | inr data => inr (default [] (Api.fileSearchStores data))
           end
         else inl (Error ("Gemini listFileSearchStores failed: "
                          +:+ JsString.of_N (Res.status res) +:+ " " +:+ Res.text res))
     end,
     [EvResolveApiKey p; EvSetTimeout deadline; EvFetch (listRequest key params);
      EvClearTimeout]).
Proof.
  intros Hkey. unfold run, listFileSearchStores. unfold mbind at 1. unfold M_bind.
  rewrite (resolveApiKey_ok _ _ _ key) by done.
  unfold_M. simpl.
  destruct (fetch w (listRequest key params)) as [reason|res]; [done|].
  destruct (Res.ok res); simpl; [|done].
  by destruct (Res.json res).
Qed.

Lemma listFileSearchStores_traces :
  snd (run (listFileSearchStores w params)) = []
  \/ snd (run (listFileSearchStores w params)) = [EvResolveApiKey p]
  \/ exists key,
       resolvesTo w (lp_config params) (lp_agentDir params) key
       /\ snd (run (listFileSearchStores w params))
          = [EvResolveApiKey p; EvSetTimeout deadline;
             EvFetch (listRequest key params); EvClearTimeout].
Proof.
  destruct (resolveApiKey_cases w (lp_config params) (lp_agentDir params) [])
    as [(key & Hkey & _)|(e & tr & Hres & _ & _ & Horigin)].
  - right. right. exists key. split; [done|].
    by rewrite (listFileSearchStores_outcome key).
  - unfold run. rewrite (listFileSearchStores_unresolved e [] tr) by done.
    destruct Horigin as [[_ ->]|[_ ->]]; [by left | by right; left].
Qed.

End ListRun.

(** X9. The effects of [queryFileSearch] are, in this order, at most one
    credential resolution and then, only when the credential resolved and
    a store name is left, one armed timer, one request and the disarming
    of the timer. So no timer is left armed on any path and at most one
    request is sent per call. *)
Theorem queryFileSearch_effects (w : World) (params : QueryParams) :
  (snd (run (queryFileSearch w params)) = []
   \/ snd (run (queryFileSearch w params))
      = [EvResolveApiKey {| provider := "google"; cfg := config params;
                            agentDir := qp_agentDir params |}]
   \/ exists key,
        resolvesTo w (config params) (qp_agentDir params) key
        /\ storeNames (stores params) (pluginCfg params) <> []
        /\ snd (run (queryFileSearch w params))
           = [EvResolveApiKey {| provider := "google"; cfg := config params;
                                 agentDir := qp_agentDir params |};
              EvSetTimeout (default DEFAULT_TIMEOUT_MS (pluginCfg params ≫= timeoutMs));
              EvFetch (queryRequest key params);
              EvClearTimeout])
  /\ (storeNames (stores params) (pluginCfg params) = [] ->
      requests (snd (run (queryFileSearch w params))) = [])
  /\ pendingTimers (snd (run (queryFileSearch w params))) = 0
  /\ (length (requests (snd (run (queryFileSearch w params)))) <= 1)%nat.
Proof.
  destruct (queryFileSearch_traces w params) as [Htr|[Htr|(key & Hkey & Hne & Htr)]].
  - rewrite Htr. split; [by left|]. split; [done|].
    split; [reflexivity | simpl; lia].
  - rewrite Htr. split; [by right; left|]. split; [done|].
    split; [reflexivity | simpl; lia].
  - rewrite Htr. split; [right; right; by exists key|]. split; [done|].
    split; [reflexivity | simpl; lia].
Qed.

(** X10. The effects of [listFileSearchStores] are, in this order, at most
    one credential resolution and then, only when the credential resolved,
    one armed timer, one request and the disarming of the timer: no timer
    stays armed and at most one request is sent. *)
Theorem listFileSearchStores_effects (w : World) (params : ListParams) :
  (snd (run (listFileSearchStores w params)) = []
   \/ snd (run (listFileSearchStores w params))
      = [EvResolveApiKey {| provider := "google"; cfg := lp_config params;
                            agentDir := lp_agentDir params |}]
   \/ exists key,
        resolvesTo w (lp_config params) (lp_agentDir params) key
        /\ snd (run (listFileSearchStores w params))
           = [EvResolveApiKey {| provider := "google"; cfg := lp_config params;
                                 agentDir := lp_agentDir params |};
              EvSetTimeout (default DEFAULT_TIMEOUT_MS (lp_pluginCfg params ≫= timeoutMs));
              EvFetch (listRequest key params);
              EvClearTimeout])
  /\ pendingTimers (snd (run (listFileSearchStores w params))) = 0
  /\ (length (requests (snd (run (listFileSearchStores w params)))) <= 1)%nat.
Proof.
  destruct (listFileSearchStores_traces w params) as [Htr|[Htr|(key & Hkey & Htr)]].
  - rewrite Htr. split; [by left|]. split; [reflexivity | simpl; lia].
  - rewrite Htr. split; [by right; left|]. split; [reflexivity | simpl; lia].
  - rewrite Htr. split; [right; right; by exists key|].
    split; [reflexivity | simpl; lia].
Qed.

(** X11. A rejection of [fetch] (a network failure or the abort at the
    deadline) and a body that does not parse as JSON end either call in
    that very failure: it is passed on unchanged, no value is returned. *)
Theorem transport_failures (w : World) (key : string) :
  (forall params reason,
      resolvesTo w (config params) (qp_agentDir params) key ->
      storeNames (stores params) (pluginCfg params) <> [] ->
      fetch w (queryRequest key params) = Rejected reason ->
      fst (run (queryFileSearch w params)) = inl (FetchError reason))
  /\ (forall params res m,
        resolvesTo w (config params) (qp_agentDir params) key ->
        storeNames (stores params) (pluginCfg params) <> [] ->
        fetch w (queryRequest key params) = Resolved res ->
        Res.ok res = true -> Res.json res = inl m ->
        fst (run (queryFileSearch w params)) = inl (JsonError m))
  /\ (forall params reason,
        resolvesTo w (lp_config params) (lp_agentDir params) key ->
        fetch w (listRequest key params) = Rejected reason ->
        fst (run (listFileSearchStores w params)) = inl (FetchError reason))
  /\ (forall params res m,
        resolvesTo w (lp_config params) (lp_agentDir params) key ->
        fetch w (listRequest key params) = Resolved res ->
        Res.ok res = true -> Res.json res = inl m ->
        fst (run (listFileSearchStores w params)) = inl (JsonError m)).
Proof.
  split; [|split; [|split]].
  - intros params reason Hkey Hnames Hfetch.
    rewrite (queryFileSearch_outcome w params key) by done. by rewrite Hfetch.
  - intros params res m Hkey Hnames Hfetch Hok Hjson.
    rewrite (queryFileSearch_outcome w params key) by done.
    by rewrite Hfetch, Hok, Hjson.
  - intros params reason Hkey Hfetch.
    rewrite (listFileSearchStores_outcome w params key) by done. simpl.
    by rewrite Hfetch.
  - intros params res m Hkey Hfetch Hok Hjson.
    rewrite (listFileSearchStores_outcome w params key) by done. simpl.
    by rewrite Hfetch, Hok, Hjson.
Qed.

Lemma offline_resolvesTo (conf : option OpenClawConfig) (dir : option string) :
  resolvesTo offlineWorld conf dir "test-api-key".
Proof.
  exists mockModelAuth,
    {| apiKey := Some "test-api-key"; profileId := None;
       source := "test"; mode := "api-key" |}.
  repeat split; reflexivity.
Defined.

Lemma transport_failures_witness :
  fst (run (queryFileSearch offlineWorld (queryOf "test" ["s"] None)))
  = inl (FetchError "fetch failed")
  /\ fst (run (queryFileSearch garbledWorld (queryOf "test" ["s"] None)))
     = inl (JsonError "Unexpected token <")
  /\ fst (run (listFileSearchStores offlineWorld listOf)) = inl (FetchError "fetch failed")
  /\ fst (run (listFileSearchStores garbledWorld listOf))
     = inl (JsonError "Unexpected token <").
Proof.
  destruct (transport_failures offlineWorld "test-api-key") as (Hq & _ & Hl & _).
  destruct (transport_failures garbledWorld "test-api-key") as (_ & Hqj & _ & Hlj).
  split; [|split; [|split]].
  - apply Hq; [apply offline_resolvesTo | vm_compute; discriminate | reflexivity].
  - eapply Hqj; [apply mock_resolvesTo | vm_compute; discriminate | reflexivity..].
  - apply Hl; [apply offline_resolvesTo | reflexivity].
  - eapply Hlj; [apply mock_resolvesTo | reflexivity..].
Defined.

(** X12. On a success response [listFileSearchStores] returns the
    [fileSearchStores] of the body as they are, in the provider's order,
    and the empty list when the body has no such field; the request was a
    GET without a body. *)
Theorem listFileSearchStores_returns_stores (w : World) (params : ListParams)
    (key : string) (res : Res.Response) (data : Api.JsonBody) :
  resolvesTo w (lp_config params) (lp_agentDir params) key ->
  fetch w (listRequest key params) = Resolved res ->
  Res.ok res = true ->
  Res.json res = inr data ->
  (forall l, Api.fileSearchStores data = Some l ->
             fst (run (listFileSearchStores w params)) = inr l)
  /\ (Api.fileSearchStores data = None ->
      fst (run (listFileSearchStores w params)) = inr [])
  /\ requests (snd (run (listFileSearchStores w params))) = [listRequest key params]
  /\ method (listRequest key params) = GET
  /\ body (listRequest key params) = None.
Proof.
  intros Hkey Hfetch Hok Hjson.
  rewrite (listFileSearchStores_outcome w params key) by done. simpl.
  rewrite Hfetch, Hok, Hjson.
  split; [by intros l ->|]. split; [by intros ->|]. done.
Qed.

Lemma listFileSearchStores_returns_stores_witness :
  fst (run (listFileSearchStores
              (worldWith mockModelAuth (jsonResponse (storesBody (Some twoStores)) "" 200))
              listOf))
  = inr twoStores
  /\ fst (run (listFileSearchStores
                 (worldWith mockModelAuth (jsonResponse (storesBody None) "{}" 200))
                 listOf))
     = inr [].
Proof.
  split.
  - destruct (listFileSearchStores_returns_stores
                (worldWith mockModelAuth (jsonResponse (storesBody (Some twoStores)) "" 200))
                listOf "test-api-key"
                (jsonResponse (storesBody (Some twoStores)) "" 200)
                (storesBody (Some twoStores))) as (Hsome & _);
      [apply mock_resolvesTo | reflexivity..|].
    apply Hsome. reflexivity.
  - destruct (listFileSearchStores_returns_stores
                (worldWith mockModelAuth (jsonResponse (storesBody None) "{}" 200))
                listOf "test-api-key"
                (jsonResponse (storesBody None) "{}" 200)
                (storesBody None)) as (_ & Hnone & _);
      [apply mock_resolvesTo | reflexivity..|].
    apply Hnone. reflexivity.
Defined.

(** X13. [listFileSearchStores] returns a list only from a success response
    with a JSON body, obtained with a resolved credential: every other
    course ends in an error. *)
Theorem listFileSearchStores_value_inv (w : World) (params : ListParams)
    (l : list Api.FileSearchStore) :
  fst (run (listFileSearchStores w params)) = inr l ->
  exists key res data,
    resolvesTo w (lp_config params) (lp_agentDir params) key
    /\ fetch w (listRequest key params) = Resolved res
    /\ Res.ok res = true
    /\ Res.json res = inr data
    /\ l = default [] (Api.fileSearchStores data).
Proof.
  intros Hrun.
  destruct (resolveApiKey_cases w (lp_config params) (lp_agentDir params) [])
    as [(key & Hkey & _)|(e & tr & Hres & _)].
  - rewrite (listFileSearchStores_outcome w params key) in Hrun by done.
    simpl in Hrun.
    destruct (fetch w (listRequest key params)) as [reason|res] eqn:Hfetch; [done|].
    destruct (Res.ok res) eqn:Hok; [|done].
    destruct (Res.json res) as [m|data] eqn:Hjson; [done|].
    injection Hrun as <-. by exists key, res, data.
  - unfold run in Hrun.
    by rewrite (listFileSearchStores_unresolved w params e [] tr) in Hrun.
Qed.

Lemma listFileSearchStores_value_inv_witness :
  exists key res data,
    resolvesTo (worldWith mockModelAuth (jsonResponse (storesBody (Some twoStores)) "" 200))
      None None key
    /\ fetch (worldWith mockModelAuth (jsonResponse (storesBody (Some twoStores)) "" 200))
         (listRequest key listOf) = Resolved res
    /\ Res.ok res = true
    /\ Res.json res = inr data
    /\ twoStores = default [] (Api.fileSearchStores data).
Proof.
  apply (listFileSearchStores_value_inv
           (worldWith mockModelAuth (jsonResponse (storesBody (Some twoStores)) "" 200))
           listOf twoStores).
  reflexivity.
Defined.

(** X14. [queryFileSearch] returns a result only from a success response
    with a JSON body, obtained with a resolved credential and at least one
    store name in the request: every other course ends in an error, so no
    partial result is ever returned. *)
Theorem queryFileSearch_value_inv (w : World) (params : QueryParams) (r : QueryResult) :
  fst (run (queryFileSearch w params)) = inr r ->
  exists key res data,
    resolvesTo w (config params) (qp_agentDir params) key
    /\ storeNames (stores params) (pluginCfg params) <> []
    /\ fetch w (queryRequest key params) = Resolved res
    /\ Res.ok res = true
    /\ Res.json res = inr data
    /\ r = {| answer := Spec.answer data; sources := Spec.sources data |}.
Proof.
  intros Hrun.
  destruct (queryFileSearch_success w params r Hrun)
    as (key & res & data & Hkey & Hnames & Hfetch & Hok & Hjson & ->).
  exists key, res, data.
  by rewrite extractAnswer_spec, extractSources_spec.
Qed.

Lemma queryFileSearch_value_inv_witness :
  exists key res data,
    resolvesTo answerWorld None None key
    /\ storeNames ["my-store"] None <> []
    /\ fetch answerWorld (queryRequest key (queryOf "what?" ["my-store"] None)) = Resolved res
    /\ Res.ok res = true
    /\ Res.json res = inr data
    /\ {| answer := "The answer is 42.";
          sources := [ {| title := "Doc A"; uri := "https://example.com/doc" |} ] |}
       = {| answer := Spec.answer data; sources := Spec.sources data |}.
Proof.
  apply (queryFileSearch_value_inv answerWorld (queryOf "what?" ["my-store"] None)).
  reflexivity.
Defined.

(** ** What a result looks like *)

Lemma source_nonempty (chunk : Api.GroundingChunk) (s : Source) :
  Spec.source chunk = Some s -> title s <> "" \/ uri s <> "".
Proof.
  unfold Spec.source. destruct (Api.retrievedContext chunk) as [ctx|]; [|done].
  destruct (decide _) as [[Huri|Htitle]|]; [| |done]; intros [= <-]; simpl.
  - destruct Huri as (u & -> & Hu). by right.
  - destruct Htitle as (t & -> & Ht). by left.
Qed.

Lemma sources_nonempty (l : list Api.GroundingChunk) :
  Forall (fun s => title s <> "" \/ uri s <> "") (omap Spec.source l).
Proof.
  apply Forall_forall. intros s Hs.
  apply list_elem_of_omap in Hs as (chunk & _ & Hchunk).
  by apply (source_nonempty chunk).
Qed.

Lemma omap_length_le {A B} (f : A -> option B) (l : list A) :
  (length (omap f l) <= length l)%nat.
Proof.
  induction l as [|x l IH]; [done|]. csimpl.
  destruct (f x); csimpl; lia.
Qed.

Lemma trim_empty : JsString.trim "" = "".
Proof. reflexivity. Qed.

(** X15. In every result that [queryFileSearch] returns, the answer has no
    white space around it and every source has a non-empty title or a
    non-empty URI. *)
Theorem queryFileSearch_result_shape (w : World) (params : QueryParams) (r : QueryResult) :
  fst (run (queryFileSearch w params)) = inr r ->
  JsString.trim (answer r) = answer r
  /\ Forall (fun s => title s <> "" \/ uri s <> "") (sources r).
Proof.
  intros Hrun.
  destruct (queryFileSearch_success w params r Hrun)
    as (key & res & data & _ & _ & _ & _ & _ & ->). simpl.
  split.
  - unfold extractAnswer.
    destruct ((_ ≫= Api.content) ≫= Api.parts); [apply trim_idem | apply trim_empty].
  - unfold extractSources. rewrite fold_pushSource. simpl. apply sources_nonempty.
Qed.

Lemma queryFileSearch_result_shape_witness :
  JsString.trim "The answer is 42." = "The answer is 42."
  /\ Forall (fun s => title s <> "" \/ uri s <> "")
       [ {| title := "Doc A"; uri := "https://example.com/doc" |} ].
Proof.
  apply (queryFileSearch_result_shape answerWorld (queryOf "what?" ["my-store"] None)
           {| answer := "The answer is 42.";
              sources := [ {| title := "Doc A"; uri := "https://example.com/doc" |} ] |}
           eq_refl).
Defined.

(** X16. The core checks only that a store name is left, not what the
    names or the query are: with a resolved credential, a store list that
    is not empty and a cap of at least 1, exactly one POST request is sent,
    and its content is the query text as it was given. *)
Theorem queryFileSearch_sends_request (w : World) (params : QueryParams) (key : string) :
  resolvesTo w (config params) (qp_agentDir params) key ->
  stores params <> [] ->
  1 <= maxStores (pluginCfg params) ->
  requests (snd (run (queryFileSearch w params))) = [queryRequest key params]
  /\ method (queryRequest key params) = POST
  /\ (contents <$> body (queryRequest key params))
     = Some [ {| Api.parts := Some [ {| Api.text := Some (query params) |} ] |} ].
Proof.
  intros Hkey Hstores Hcap.
  assert (storeNames (stores params) (pluginCfg params) <> []) as Hnames.
  { rewrite storeNames_take by lia.
    destruct (stores params) as [|s l]; [done|].
    destruct (Z.to_nat (maxStores (pluginCfg params))) as [|n] eqn:Hn; [lia|].
    done. }
  rewrite (queryFileSearch_trace w params key) by done. done.
Qed.

Lemma queryFileSearch_sends_request_witness :
  requests (snd (run (queryFileSearch answerWorld (queryOf "" ["  "] None))))
  = [queryRequest "test-api-key" (queryOf "" ["  "] None)]
  /\ (fileSearchStoreNames <$> (fileSearch <$> (tools <$> body
        (queryRequest "test-api-key" (queryOf "" ["  "] None))) ≫= head))
     = Some ["fileSearchStores/"].
Proof.
  destruct (queryFileSearch_sends_request answerWorld (queryOf "" ["  "] None) "test-api-key")
    as (Hreq & _).
  - apply mock_resolvesTo.
  - discriminate.
  - vm_compute. discriminate.
  - split; [exact Hreq | reflexivity].
Defined.

(** ** The tool layer *)

Lemma occursIn_join (sep x : string) (l : list string) :
  x ∈ l -> occursIn x (JsString.join sep l).
Proof.
  induction l as [|y l IH]; intros Hx; [by apply elem_of_nil in Hx|].
  apply elem_of_cons in Hx as [->|Hx].
  - destruct l as [|z l]; [apply occursIn_refl|].
    change (JsString.join sep (y :: z :: l))
      with (y +:+ sep +:+ JsString.join sep (z :: l)).
    by exists "", (sep +:+ JsString.join sep (z :: l)).
  - destruct l as [|z l]; [by apply elem_of_nil in Hx|].
    change (JsString.join sep (y :: z :: l))
      with (y +:+ sep +:+ JsString.join sep (z :: l)).
    rewrite <- append_assoc. apply occursIn_suffix. by apply IH.
Qed.

Lemma occursIn_l (x rest : string) : occursIn x (x +:+ rest).
Proof. by exists "", rest. Qed.

Lemma occursIn_r (a x : string) : occursIn x (a +:+ x).
Proof. apply occursIn_suffix, occursIn_refl. Qed.

Lemma occursIn_nothing (s : string) : occursIn "" s.
Proof. by exists "", s. Qed.

Lemma sourceLine_mentions (i : nat) (s : Source) :
  occursIn (title s) (sourceLine i s) /\ occursIn (uri s) (sourceLine i s).
Proof.
  unfold sourceLine, orElse.
  destruct (JsString.truthy (uri s)) eqn:Huri;
    destruct (JsString.truthy (title s)) eqn:Htitle; split.
  - apply occursIn_suffix, occursIn_suffix, occursIn_l.
  - do 4 apply occursIn_suffix. apply occursIn_l.
  - destruct (title s); [apply occursIn_nothing | done].
  - do 4 apply occursIn_suffix. apply occursIn_l.
  - do 2 apply occursIn_suffix. apply occursIn_refl.
  - destruct (uri s); [apply occursIn_nothing | done].
  - destruct (title s); [apply occursIn_nothing | done].
  - destruct (uri s); [apply occursIn_nothing | done].
Qed.

(** X17. For a query that is not blank and a store list that is not empty,
    the tool layer does nothing but call [queryFileSearch] and format its
    result: the query goes in trimmed, the store list as it is, the model
    trimmed and only when it is a string that is not blank; the effects
    are those of the client, and an error of the client is passed on
    unchanged. *)
Theorem execute_delegates (w : World) (api : PluginApi) (ctx : ToolContext)
    (params : gmap string Unknown) (q : string) (items : list string) :
  params !! "query" = Some (UString q) ->
  JsString.trim q <> "" ->
  params !! "stores" = Some (UArray items) ->
  items <> [] ->
  run (execute w api ctx params)
  = (match fst (run (queryFileSearch w (toolCall api ctx q items (params !! "model")))) with
     | inl e => inl e
     | inr r => inr (formatResult r)
     end,
     snd (run (queryFileSearch w (toolCall api ctx q items (params !! "model"))))).
Proof.
  intros Hq Hne Hstores Hitems. unfold run, execute. rewrite Hq, Hstores.
  apply truthy_true_iff in Hne. rewrite Hne.
  destruct items as [|s l]; [done|]. cbn [negb length Nat.eqb].
  unfold mbind, M_bind at 1. unfold toolCall.
  destruct (params !! "model") as [[m| |]|];
    by destruct (queryFileSearch w _ []) as [[e|r] tr].
Qed.

Lemma execute_delegates_witness :
  (requests (snd (run (execute answerWorld noApi noCtx (toolParams " what? " ["s"]))))
   = [queryRequest "test-api-key" (queryOf "what?" ["s"] (Some emptyPluginCfg))])
  /\ fst (run (execute noCredentialWorld noApi noCtx (toolParams " what? " ["s"])))
     = inl (CredentialError "No API key found for provider google").
Proof.
  split.
  - rewrite (execute_delegates answerWorld noApi noCtx (toolParams " what? " ["s"])
               " what? " ["s"]);
      [reflexivity | reflexivity | vm_compute; discriminate | reflexivity | discriminate].
  - rewrite (execute_delegates noCredentialWorld noApi noCtx (toolParams " what? " ["s"])
               " what? " ["s"]);
      [reflexivity | reflexivity | vm_compute; discriminate | reflexivity | discriminate].
Defined.

(** X18. The text shown for a result is one item of type "text". It
    contains the answer, or the sentence "No answer was generated for this
    query." when the answer is empty. Without sources it is just that;
    with sources it also contains the heading "**Sources:**" and the title
    and the URI of every source. *)
Theorem formatResult_text (r : QueryResult) :
  exists txt,
    formatResult r = {| content := [ {| type := "text"; text := txt |} ] |}
    /\ occursIn (if JsString.truthy (answer r) then answer r
                 else "No answer was generated for this query.") txt
    /\ (sources r = [] ->
        txt = if JsString.truthy (answer r) then answer r
              else "No answer was generated for this query.")
    /\ (sources r <> [] -> occursIn "**Sources:**" txt)
    /\ Forall (fun s => occursIn (title s) txt /\ occursIn (uri s) txt) (sources r).
Proof.
  eexists. split; [reflexivity|].
  destruct (sources r) as [|s l] eqn:Hsrc.
  - simpl. split; [apply occursIn_refl|]. split; [done|]. split; [done|]. constructor.
  - change (0 <? length (s :: l))%nat with true. cbv iota.
    split; [apply occursIn_join; apply elem_of_cons; by left|].
    split; [done|]. split.
    + intros _. apply occursIn_join. set_solver.
    + apply Forall_forall. intros s' Hs'.
      apply list_elem_of_lookup in Hs' as (i & Hi).
      assert (occursIn (sourceLine i s')
                (JsString.join newline
                   ([if JsString.truthy (answer r) then answer r
                     else "No answer was generated for this query."]
                    ++ [""; "**Sources:**"] ++ imap sourceLine (s :: l)))) as Hline.
      { apply occursIn_join. apply elem_of_app. right. apply elem_of_app. right.
        apply list_elem_of_lookup. exists i. by rewrite list_lookup_imap, Hi. }
      destruct (sourceLine_mentions i s') as (Ht & Hu).
      split; by eapply occursIn_trans.
Qed.

Lemma formatResult_text_witness :
  text <$> content (formatResult {| answer := "Just an answer."; sources := [] |})
  = ["Just an answer."].
Proof.
  destruct (formatResult_text {| answer := "Just an answer."; sources := [] |})
    as (txt & Hfmt & _ & Hplain & _).
  rewrite Hfmt. simpl. rewrite Hplain; reflexivity.
Defined.

Lemma storeEntry_mentions (i : nat) (s : Api.FileSearchStore) :
  occursIn (Api.name s) (storeEntry i s)
  /\ occursIn (default (Api.name s) (Api.displayName s)) (storeEntry i s)
  /\ occursIn (default "" (Api.description s)) (storeEntry i s).
Proof.
  unfold storeEntry.
  set (line1 := JsString.of_N (N.of_nat (i + 1)) +:+ ". **"
                +:+ default (Api.name s) (Api.displayName s) +:+ "**").
  set (line2 := "   name: `" +:+ Api.name s +:+ "`").
  assert (occursIn (Api.name s) line2) as Hname.
  { apply occursIn_suffix, occursIn_l. }
  assert (occursIn (default (Api.name s) (Api.displayName s)) line1) as Hdisplay.
  { do 2 apply occursIn_suffix. apply occursIn_l. }
  destruct (truthyOpt (Api.description s)) eqn:Hdesc.
  - split; [|split].
    + eapply occursIn_trans; [exact Hname|]. apply occursIn_join. set_solver.
    + eapply occursIn_trans; [exact Hdisplay|]. apply occursIn_join. set_solver.
    + eapply occursIn_trans; [apply (occursIn_r "   ")|].
      apply occursIn_join. set_solver.
  - split; [|split].
    + eapply occursIn_trans; [exact Hname|]. apply occursIn_join. set_solver.
    + eapply occursIn_trans; [exact Hdisplay|]. apply occursIn_join. set_solver.
    + destruct (Api.description s) as [[|c d]|]; try apply occursIn_nothing.
      discriminate Hdesc.
Qed.

Lemma listStoresExecute_run (w : World) (api : PluginApi) (ctx : ToolContext) :
  run (listStoresExecute w api ctx)
  = (match fst (run (listFileSearchStores w
                       {| lp_config := ctx_config ctx; lp_agentDir := ctx_agentDir ctx;
                          lp_pluginCfg := Some (default emptyPluginCfg (pluginConfig api)) |})) with
     | inl e => inl e
     | inr l =>
         inr {| content := [ {| type := "text";
                                text := if (length l =? 0)%nat
                                        then "No file search stores found."
                                        else JsString.join (newline +:+ newline)
                                               (imap storeEntry l) |} ] |}
     end,
     snd (run (listFileSearchStores w
                 {| lp_config := ctx_config ctx; lp_agentDir := ctx_agentDir ctx;
                    lp_pluginCfg := Some (default emptyPluginCfg (pluginConfig api)) |}))).
Proof.
  unfold run, listStoresExecute. unfold mbind, M_bind at 1.
  destruct (listFileSearchStores w _ []) as [[e|l] tr]; [done|]. simpl.
  by destruct (length l =? 0)%nat.
Qed.

(** X19. When the client returns stores, the listing tool answers with one
    text item: "No file search stores found." for an empty list, and
    otherwise a text that contains, for every store, its name, its display
    name (the name when it has none) and its description. *)
Theorem listStoresExecute_lists (w : World) (api : PluginApi) (ctx : ToolContext)
    (l : list Api.FileSearchStore) :
  fst (run (listFileSearchStores w
              {| lp_config := ctx_config ctx; lp_agentDir := ctx_agentDir ctx;
                 lp_pluginCfg := Some (default emptyPluginCfg (pluginConfig api)) |}))
  = inr l ->
  exists txt,
    fst (run (listStoresExecute w api ctx))
    = inr {| content := [ {| type := "text"; text := txt |} ] |}
    /\ (l = [] -> txt = "No file search stores found.")
    /\ Forall (fun s => occursIn (Api.name s) txt
                        /\ occursIn (default (Api.name s) (Api.displayName s)) txt
                        /\ occursIn (default "" (Api.description s)) txt) l.
Proof.
  intros Hrun. rewrite listStoresExecute_run, Hrun. simpl.
  eexists. split; [reflexivity|]. split; [by intros ->|].
  destruct l as [|s0 l0]; [constructor|].
  change (length (s0 :: l0) =? 0)%nat with false. cbv iota.
  apply Forall_forall. intros s Hs.
  apply list_elem_of_lookup in Hs as (i & Hi).
  assert (occursIn (storeEntry i s)
            (JsString.join (newline +:+ newline) (imap storeEntry (s0 :: l0)))) as Hentry.
  { apply occursIn_join, list_elem_of_lookup. exists i.
    by rewrite list_lookup_imap, Hi. }
  destruct (storeEntry_mentions i s) as (Hname & Hdisplay & Hdesc).
  split; [|split]; by eapply occursIn_trans.
Qed.

Lemma listStoresExecute_lists_witness :
  exists txt,
    fst (run (listStoresExecute
                (worldWith mockModelAuth (jsonResponse (storesBody (Some twoStores)) "" 200))
                noApi noCtx))
    = inr {| content := [ {| type := "text"; text := txt |} ] |}
    /\ (twoStores = [] -> txt = "No file search stores found.")
    /\ Forall (fun s => occursIn (Api.name s) txt
                        /\ occursIn (default (Api.name s) (Api.displayName s)) txt
                        /\ occursIn (default "" (Api.description s)) txt) twoStores.
Proof.
  apply (listStoresExecute_lists
           (worldWith mockModelAuth (jsonResponse (storesBody (Some twoStores)) "" 200))
           noApi noCtx twoStores).
  reflexivity.
Defined.

(** X20. The listing tool adds no effect of its own and hides no failure:
    its effects are those of [listFileSearchStores], called with the
    configuration and directory of the tool context, and an error of the
    client is its error. *)
Theorem listStoresExecute_delegates (w : World) (api : PluginApi) (ctx : ToolContext) :
  snd (run (listStoresExecute w api ctx))
  = snd (run (listFileSearchStores w
                {| lp_config := ctx_config ctx; lp_agentDir := ctx_agentDir ctx;
                   lp_pluginCfg := Some (default emptyPluginCfg (pluginConfig api)) |}))
  /\ forall e,
       fst (run (listFileSearchStores w
                   {| lp_config := ctx_config ctx; lp_agentDir := ctx_agentDir ctx;
                      lp_pluginCfg := Some (default emptyPluginCfg (pluginConfig api)) |}))
       = inl e ->
       fst (run (listStoresExecute w api ctx)) = inl e.
Proof.
  rewrite listStoresExecute_run. split; [done|].
  intros e He. simpl. by rewrite He.
Qed.

Lemma listStoresExecute_delegates_witness :
  fst (run (listStoresExecute quotaWorld noApi noCtx))
  = inl (Error "Gemini listFileSearchStores failed: 429 {quota}").
Proof.
  destruct (listStoresExecute_delegates quotaWorld noApi noCtx) as (_ & Herr).
  apply Herr. reflexivity.
Defined.

(** ** The probing of loadModelAuth *)

Section LoaderFacts.

Import Loader.

Variable h : Host.

Lemma tryPaths_none (paths : list string) (st : State) :
  Forall (fun path => usable h path = None) paths ->
  tryPaths h paths st
  = (None, {| cache := cache st; imported := imported st ++ paths |}).
Proof.
  revert st. induction paths as [|path rest IH]; intros st Hall.
  - simpl. rewrite app_nil_r. by destruct st.
  - apply Forall_cons in Hall as [Hpath Hrest]. simpl.
    unfold usable in Hpath. rewrite Hpath.
    rewrite (IH _ Hrest). simpl. by rewrite <- app_assoc.
Qed.

Lemma tryPaths_first (pre post : list string) (path : string) (ma : ModelAuth)
    (st : State) :
  Forall (fun path' => usable h path' = None) pre ->
  usable h path = Some ma ->
  tryPaths h (pre ++ path :: post) st
  = (Some ma, {| cache := cacheOf ma; imported := imported st ++ pre ++ [path] |}).
Proof.
  revert st. induction pre as [|path' pre IH]; intros st Hpre Hpath.
  - simpl. unfold usable in Hpath. by rewrite Hpath.
  - apply Forall_cons in Hpre as [Hpath' Hpre]. simpl.
    unfold usable in Hpath'. rewrite Hpath'.
    rewrite (IH _ Hpre Hpath). simpl. by rewrite <- app_assoc.
Qed.

Lemma tryPaths_app (l1 l2 : list string) (st : State) :
  tryPaths h (l1 ++ l2) st
  = match tryPaths h l1 st with
    | (Some r, st') => (Some r, st')
    | (None, st') => tryPaths h l2 st'
    end.
Proof.
  revert st. induction l1 as [|path l1 IH]; intros st; [done|]. simpl.
  destruct (importModule h path ≫= extractModelAuth); [done | apply IH].
Qed.

Lemma tryPaths_cache (paths : list string) (st st' : State) (ma : ModelAuth) :
  tryPaths h paths st = (Some ma, st') -> cache st' = cacheOf ma.
Proof.
  revert st. induction paths as [|path rest IH]; intros st; simpl; [done|].
  destruct (importModule h path ≫= extractModelAuth) as [r|].
  - by intros [= <- <-].
  - apply IH.
Qed.

(** With an empty cache the function is one pass over the candidates. *)
Lemma loadModelAuth_probe (st : State) :
  cacheIsEmpty (cache st) ->
  loadModelAuth h st
  = match tryPaths h (candidates h) st with
    | (Some r, st') => (inr r, st')
    | (None, st') => (inl notAvailable, st')
    end.
Proof.
  intros Hempty. unfold candidates. rewrite tryPaths_app.
  assert (loadModelAuth h st
          = match tryPaths h relativePaths st with
            | (Some result, st') => (inr result, st')
            | (None, st') =>
                match resolveOpenclaw h with
                | Some resolved =>
                    match tryPaths h (packagePaths (dropLastSegment resolved)) st' with
                    | (Some result, st'') => (inr result, st'')
                    | (None, st'') => (inl notAvailable, st'')
                    end
                | None => (inl notAvailable, st')
                end
            end) as ->.
  { unfold loadModelAuth. destruct Hempty as [-> | Hg]; [done|].
    rewrite Hg. by destruct (_resolveApiKeyForProvider (cache st)). }
  destruct (tryPaths h relativePaths st) as [[r|] st']; [done|].
  by destruct (resolveOpenclaw h) as [resolved|].
Qed.

Lemma hasSeparator_append (a b : string) :
  hasSeparator (a +:+ b) = hasSeparator a || hasSeparator b.
Proof.
  induction a as [|c a IH]; [done|].
  rewrite append_cons. simpl. by rewrite IH, orb_assoc.
Qed.

End LoaderFacts.

(** X21. With an empty cache [loadModelAuth] tries the candidate paths in
    their order - the two relative paths, then the two paths under the
    root of the openclaw package when that resolves - and takes the first
    one that can be imported and exports both functions: the paths before
    it are imported and passed over, none after it is imported, and its
    two functions are left in the cache. *)
Theorem loadModelAuth_first_usable (h : Loader.Host) (st : Loader.State)
    (pre post : list string) (path : string) (ma : ModelAuth) :
  cacheIsEmpty (Loader.cache st) ->
  Loader.candidates h = pre ++ path :: post ->
  Forall (fun path' => Loader.usable h path' = None) pre ->
  Loader.usable h path = Some ma ->
  Loader.loadModelAuth h st
  = (inr ma, {| Loader.cache := cacheOf ma;
                Loader.imported := Loader.imported st ++ pre ++ [path] |}).
Proof.
  intros Hempty Hcand Hpre Hpath.
  rewrite loadModelAuth_probe by done.
  by rewrite Hcand, (tryPaths_first h pre post path ma).
Qed.

Lemma loadModelAuth_first_usable_witness :
  Loader.loadModelAuth installedHost freshState
  = (inr mockModelAuth,
     {| Loader.cache := cacheOf mockModelAuth;
        Loader.imported := ["../../../src/agents/model-auth.js";
                            "../../../agents/model-auth.js";
                            "/opt/openclaw/dist/agents/model-auth.js"] |}).
Proof.
  apply (loadModelAuth_first_usable installedHost freshState
           Loader.relativePaths ["/opt/openclaw/dist/src/agents/model-auth.js"]
           "/opt/openclaw/dist/agents/model-auth.js" mockModelAuth).
  - left. reflexivity.
  - reflexivity.
  - repeat constructor.
  - reflexivity.
Defined.

(** X22. With an empty cache, when no candidate path yields a module with
    both functions, [loadModelAuth] fails with "Internal error: model-auth
    not available" after it has tried every candidate once, in order, and
    the cache stays as it was. *)
Theorem loadModelAuth_not_available (h : Loader.Host) (st : Loader.State) :
  cacheIsEmpty (Loader.cache st) ->
  Forall (fun path => Loader.usable h path = None) (Loader.candidates h) ->
  Loader.loadModelAuth h st
  = (inl (Error "Internal error: model-auth not available"),
     {| Loader.cache := Loader.cache st;
        Loader.imported := Loader.imported st ++ Loader.candidates h |}).
Proof.
  intros Hempty Hall.
  rewrite loadModelAuth_probe by done.
  by rewrite tryPaths_none.
Qed.

Lemma loadModelAuth_not_available_witness :
  Loader.loadModelAuth bareHost freshState
  = (inl (Error "Internal error: model-auth not available"),
     {| Loader.cache := Loader.emptyCache;
        Loader.imported := ["../../../src/agents/model-auth.js";
                            "../../../agents/model-auth.js"] |}).
Proof.
  apply (loadModelAuth_not_available bareHost freshState).
  - left. reflexivity.
  - repeat constructor.
Defined.

(** X23. Once [loadModelAuth] has succeeded, the next call returns the same
    two functions from the cache without importing anything, whatever the
    module system would answer by then. *)
Theorem loadModelAuth_cached (h h' : Loader.Host) (st st' : Loader.State)
    (ma : ModelAuth) :
  Loader.loadModelAuth h st = (inr ma, st') ->
  Loader.loadModelAuth h' st' = (inr ma, st').
Proof.
  intros Hload.
  assert (Loader.cache st' = cacheOf ma) as Hcache.
  { unfold Loader.loadModelAuth in Hload.
    destruct (Loader._resolveApiKeyForProvider (Loader.cache st)) as [f|] eqn:Hf.
    - destruct (Loader._requireApiKey (Loader.cache st)) as [g|] eqn:Hg.
      + injection Hload as <- <-. destruct st as [[cf cg] imp]. simpl in *.
        by rewrite Hf, Hg.
      + destruct (Loader.tryPaths h Loader.relativePaths st) as [[r|] st1] eqn:H1.
        * injection Hload as <- <-. exact (tryPaths_cache h _ st _ _ H1).
        * destruct (Loader.resolveOpenclaw h) as [resolved|]; [|done].
          destruct (Loader.tryPaths h _ st1) as [[r|] st2] eqn:H2; [|done].
          injection Hload as <- <-. exact (tryPaths_cache h _ st1 _ _ H2).
    - destruct (Loader.tryPaths h Loader.relativePaths st) as [[r|] st1] eqn:H1.
      + injection Hload as <- <-. exact (tryPaths_cache h _ st _ _ H1).
      + destruct (Loader.resolveOpenclaw h) as [resolved|]; [|done].
        destruct (Loader.tryPaths h _ st1) as [[r|] st2] eqn:H2; [|done].
        injection Hload as <- <-. exact (tryPaths_cache h _ st1 _ _ H2). }
  unfold Loader.loadModelAuth. rewrite Hcache. simpl. by destruct ma.
Qed.

Lemma loadModelAuth_cached_witness :
  Loader.loadModelAuth bareHost
    {| Loader.cache := cacheOf mockModelAuth;
       Loader.imported := ["../../../src/agents/model-auth.js";
                           "../../../agents/model-auth.js";
                           "/opt/openclaw/dist/agents/model-auth.js"] |}
  = (inr mockModelAuth,
     {| Loader.cache := cacheOf mockModelAuth;
        Loader.imported := ["../../../src/agents/model-auth.js";
                            "../../../agents/model-auth.js";
                            "/opt/openclaw/dist/agents/model-auth.js"] |}).
Proof.
  apply (loadModelAuth_cached installedHost bareHost freshState).
  reflexivity.
Defined.

(** X24. The root of the openclaw package is the resolved path without its
    last segment: what follows the last separator is cut together with
    the separator, and a path without a separator is left as it is. *)
Theorem dropLastSegment_spec (dir file : string) (c : ascii) :
  Loader.isSeparator c = true ->
  Loader.hasSeparator file = false ->
  file <> "" ->
  Loader.dropLastSegment (dir +:+ String c file) = dir
  /\ Loader.dropLastSegment file = file.
Proof.
  intros Hc Hfile Hne. split.
  - induction dir as [|x dir IH].
    + rewrite append_empty_l. simpl. rewrite Hc, Hfile.
      apply truthy_true_iff in Hne. by rewrite Hne.
    + rewrite append_cons. simpl. rewrite IH.
      rewrite hasSeparator_append. simpl. rewrite Hc.
      by rewrite orb_true_r, andb_false_r.
  - clear Hne. induction file as [|x file IH]; [done|].
    simpl in *. apply orb_false_iff in Hfile as [Hx Hrest].
    by rewrite Hx, IH.
Qed.

Lemma dropLastSegment_spec_witness :
  Loader.dropLastSegment "/opt/openclaw/dist/index.js" = "/opt/openclaw/dist"
  /\ Loader.dropLastSegment "index.js" = "index.js".
Proof.
  apply (dropLastSegment_spec "/opt/openclaw/dist" "index.js" "/").
  - reflexivity.
  - reflexivity.
  - discriminate.
Defined.

(** ** The request URLs *)

Lemma chars_append (a b : string) : chars (a +:+ b) = chars a ++ chars b.
Proof.
  induction a as [|c a IH]; [done|].
  rewrite append_cons. simpl. by rewrite IH.
Qed.

Lemma hexDigit_safe (k : nat) : (k < 16)%nat -> uriSafe (JsString.hexDigit k) = true.
Proof.
  intros Hk. do 16 (destruct k as [|k]; [reflexivity|]). lia.
Qed.

Lemma percent_safe (n : nat) :
  (n < 256)%nat -> Forall (fun c => uriSafe c = true) (chars (JsString.percent n)).
Proof.
  intros Hn. unfold JsString.percent. cbn [chars].
  repeat constructor.
  - apply hexDigit_safe. apply Nat.Div0.div_lt_upper_bound. lia.
  - apply hexDigit_safe. apply Nat.mod_upper_bound. lia.
Qed.

Lemma encodeURIComponent_safe (s : string) :
  Forall (fun c => uriSafe c = true) (chars (JsString.encodeURIComponent s)).
Proof.
  induction s as [|c s IH]; [constructor|].
  cbn [JsString.encodeURIComponent]. cbv zeta.
  rewrite chars_append. apply Forall_app. split; [|exact IH].
  pose proof (nat_ascii_bounded c) as Hc.
  destruct (JsString.uriUnreserved (nat_of_ascii c)) eqn:Hun.
  - simpl. repeat constructor. unfold uriSafe. by rewrite Hun.
  - destruct (Nat.ltb (nat_of_ascii c) 128) eqn:Hlt.
    + by apply percent_safe.
    + rewrite chars_append. apply Forall_app. split; apply percent_safe.
      * assert (nat_of_ascii c / 64 < 4)%nat
          by (apply Nat.Div0.div_lt_upper_bound; lia).
        lia.
      * pose proof (Nat.mod_upper_bound (nat_of_ascii c) 64). lia.
Qed.

(** X25. The model name and the API key enter the request URLs only in
    encoded form: the URL of a query is the base URL, "/models/", the
    encoded model of the call, ":generateContent?key=" and the encoded
    key; that of a listing is the base URL, "/fileSearchStores?key=" and
    the encoded key; and whatever is encoded comes out as unreserved
    characters, percent signs and hexadecimal digits only, so it holds
    none of the characters / ? & = # and no space. *)
Theorem request_urls_encoded (key : string) :
  (forall params,
      url (queryRequest key params)
      = resolveBaseUrl (config params) +:+ "/models/"
        +:+ JsString.encodeURIComponent (resolveModel (model params) (pluginCfg params))
        +:+ ":generateContent?key=" +:+ JsString.encodeURIComponent key)
  /\ (forall params,
        url (listRequest key params)
        = resolveBaseUrl (lp_config params) +:+ "/fileSearchStores?key="
          +:+ JsString.encodeURIComponent key)
  /\ (forall s, Forall (fun c => uriSafe c = true) (chars (JsString.encodeURIComponent s)))
  /\ Forall (fun c => uriSafe c = false) (chars "/?&=# ").
Proof.
  split; [|split; [|split]].
  - intros params. reflexivity.
  - intros params. reflexivity.
  - apply encodeURIComponent_safe.
  - repeat constructor.
Qed.
